(** * rvlox: a shallow embedding of the scanner, the single-pass compiler
    and the bytecode VM, with the properties of the spec settled on it.

    Sources: src/src/value.rs, common.rs, scanner.rs, compiler.rs, vm.rs.
    Rust [f64] is modelled by Rocq's primitive IEEE-754 binary64 floats,
    [usize] by [nat], [&str]/[String] by [string] or [list ascii] (the
    scanner walks characters), and a Rust panic by the [Panicked] outcome. *)

From Stdlib Require Import List String Ascii ZArith Lia Bool PeanoNat.
From Stdlib Require Import Floats Uint63 Sorted.
Import ListNotations.

Open Scope string_scope.
Open Scope list_scope.

(** ** Outcomes and a small state monad *)

(** A computation either finishes, panics (Rust [panic!]/[unwrap] on
    [None]/index out of bounds), or runs out of the fuel that bounds the
    loops and the recursion of the model. *)
Inductive Outcome (A : Type) : Type :=
| Done (a : A)
| Panicked (msg : string)
| OutOfFuel.
Arguments Done {A} a.
Arguments Panicked {A} msg.
Arguments OutOfFuel {A}.

Definition ST (S A : Type) : Type := S -> Outcome (A * S).

Definition ret {S A} (a : A) : ST S A := fun s => Done (a, s).

Definition bind {S A B} (m : ST S A) (k : A -> ST S B) : ST S B :=
  fun s =>
    match m s with
    | Done (a, s') => k a s'
    | Panicked msg => Panicked msg
    | OutOfFuel => OutOfFuel
    end.

Definition get {S} : ST S S := fun s => Done (s, s).
Definition put {S} (s : S) : ST S unit := fun _ => Done (tt, s).
Definition modify {S} (f : S -> S) : ST S unit := fun s => Done (tt, f s).
Definition panic {S A} (msg : string) : ST S A := fun _ => Panicked msg.
Definition out_of_fuel {S A} : ST S A := fun _ => OutOfFuel.

Notation "x <- m ;; k" := (bind m (fun x => k))
  (at level 61, m at next level, right associativity).
Notation "m ;; k" := (bind m (fun _ => k))
  (at level 61, right associativity).

(** [while { body }] where one run of [body] is one iteration and answers
    whether to go on; [fuel] bounds the number of iterations. *)
Fixpoint loop_fuel {S} (fuel : nat) (body : ST S bool) : ST S unit :=
  match fuel with
  | O => out_of_fuel
  | S fuel' => b <- body ;; if b then loop_fuel fuel' body else ret tt
  end.

(** ** value.rs *)

Module Value.

Inductive Value : Type :=
| Double (d : float).

Definition negate (v : Value) : Value :=
  match v with Double d => Double (- d)%float end.

(** [binary_operator!(self, add, -)]: the macro is instantiated with [-]. *)
Definition add (l r : Value) : Value :=
  match l, r with Double l, Double r => Double (l - r)%float end.

(** [binary_operator!(self, subtract, -)] *)
Definition subtract (l r : Value) : Value :=
  match l, r with Double l, Double r => Double (l - r)%float end.

(** [binary_operator!(self, multiply, STAR)], STAR being the product operator. *)
Definition multiply (l r : Value) : Value :=
  match l, r with Double l, Double r => Double (l * r)%float end.

(** [binary_operator!(self, divide, /)] *)
Definition divide (l r : Value) : Value :=
  match l, r with Double l, Double r => Double (l / r)%float end.

End Value.

(** ** common.rs *)

Module Instruction.

Inductive Instruction : Type :=
| Return
| Constant (i : nat)
| Negate
| Add
| Subtract
| Multiply
| Divide.

End Instruction.

Module Common.

Import Instruction.

Inductive InstructionWithLine : Type :=
| IWL (oc : Instruction) (line : nat).

Record Chunk : Type := mkChunk {
  instructions : list InstructionWithLine;
  constants : list Value.Value
}.

Definition Chunk_new : Chunk := mkChunk [] [].

Definition add_instruction (c : Chunk) (oc : Instruction) (line : nat) : Chunk :=
  mkChunk (instructions c ++ [IWL oc line]) (constants c).

(** [self.constants.push(c); self.constants.len() - 1] *)
Definition add_constant (ch : Chunk) (c : Value.Value) : Chunk * nat :=
  let cs := constants ch ++ [c] in
  (mkChunk (instructions ch) cs, List.length cs - 1).

(** [&self.constants[i]]: indexing out of bounds panics. *)
Definition read_constant (ch : Chunk) (i : nat) : Outcome Value.Value :=
  match nth_error (constants ch) i with
  | Some v => Done v
  | None => Panicked "index out of bounds"
  end.

(** [disassemble] prints [i instruction] for every instruction. *)
Definition disassemble (ch : Chunk) : list (nat * InstructionWithLine) :=
  combine (seq 0 (List.length (instructions ch))) (instructions ch).

End Common.

(** ** Decimal lexemes to [f64]

    The scanner hands [str::parse::<f64>] a lexeme made of ASCII digits
    and at most one '.'.  Rust's conversion is correctly rounded (round to
    nearest, ties to even).  [round_rat p q] is that rounding of the
    positive rational [p / q]: it fixes the binary exponent [e] so that the
    integer significand [m] fits in 53 bits (or [e] is the subnormal
    exponent -1074), rounds [p / (q * 2^e)] to the nearest integer with
    ties to even, and builds [m * 2^e] exactly; overflow gives infinity. *)
Module Float64.

Definition is_digit (c : ascii) : bool :=
  (("0" <=? c)%char && (c <=? "9")%char)%bool.

Definition digit_value (c : ascii) : Z :=
  Z.of_nat (nat_of_ascii c - nat_of_ascii "0").

(** Digits of [ds] as a decimal numeral, with [acc] in front. *)
Fixpoint digits_value (acc : Z) (ds : list ascii) : Z :=
  match ds with
  | [] => acc
  | d :: ds => digits_value (acc * 10 + digit_value d) ds
  end.

Definition round_rat (p q : Z) : float :=
  let l0 := (Z.log2 p - Z.log2 q)%Z in
  let below := if (0 <=? l0)%Z then (p <? q * 2 ^ l0)%Z
               else (p * 2 ^ (- l0) <? q)%Z in
  let l := if below then (l0 - 1)%Z else l0 in
  let e := Z.max (l - 52) (-1074) in
  let num := if (0 <=? e)%Z then p else (p * 2 ^ (- e))%Z in
  let den := if (0 <=? e)%Z then (q * 2 ^ e)%Z else q in
  let m := (num / den)%Z in
  let r := (num mod den)%Z in
  let m' := if ((den <? 2 * r) || ((2 * r =? den) && Z.odd m))%Z%bool
            then (m + 1)%Z else m in
  Z.ldexp (of_uint63 (Uint63.of_Z m')) e.

(** The value of [p / 10^k]. *)
Definition of_decimal (p : Z) (k : nat) : float :=
  if (p =? 0)%Z then zero else round_rat p (10 ^ Z.of_nat k).

(** [lexeme.parse::<f64>()] on lexemes of the form [d*] or [d*.d*] with at
    least one digit (the only characters the scanner puts in a number
    lexeme); [None] is the [Err] the scanner turns into a panic. *)
Fixpoint digit_prefix (l : list ascii) : list ascii :=
  match l with
  | c :: r => if is_digit c then c :: digit_prefix r else []
  | [] => []
  end.

Definition parse_f64 (lexeme : list ascii) : option float :=
  let int_part := digit_prefix lexeme in
  let rest := skipn (List.length int_part) lexeme in
  match rest with
  | [] => if (0 <? List.length int_part)%nat
          then Some (of_decimal (digits_value 0 int_part) 0) else None
  | c :: frac =>
      if ((c =? ".")%char && forallb is_digit frac
          && (0 <? List.length int_part + List.length frac)%nat)%bool
      then Some (of_decimal (digits_value 0 (int_part ++ frac)) (List.length frac))
      else None
  end.

End Float64.

(** ** scanner.rs *)

Module TokenType.

Inductive TokenType : Type :=
(* Single-character tokens. *)
| LeftParen | RightParen | LeftBrace | RightBrace | Comma | Dot | Minus
| Plus | Semicolon | Slash | Star
(* One or two character tokens. *)
| Bang | BangEqual | Equal | EqualEqual | Greater | GreaterEqual | Less
| LessEqual
(* Literals. *)
| Identifier (s : string) | String (s : string) | Number (d : float)
(* Keywords. *)
| And | Class | Else | False | Fun | For | If | Nil | Or | Print | Return
| Super | This | True | Var | While
| Error (msg : string).

(** [#[derive(PartialEq)]]: same variant and equal payloads; the [f64]
    payload is compared with IEEE-754 [==]. *)
Definition eqb (a b : TokenType) : bool :=
  match a, b with
  | LeftParen, LeftParen | RightParen, RightParen | LeftBrace, LeftBrace
  | RightBrace, RightBrace | Comma, Comma | Dot, Dot | Minus, Minus
  | Plus, Plus | Semicolon, Semicolon | Slash, Slash | Star, Star
  | Bang, Bang | BangEqual, BangEqual | Equal, Equal
  | EqualEqual, EqualEqual | Greater, Greater
  | GreaterEqual, GreaterEqual | Less, Less | LessEqual, LessEqual
  | And, And | Class, Class | Else, Else | False, False | Fun, Fun
  | For, For | If, If | Nil, Nil | Or, Or | Print, Print
  | Return, Return | Super, Super | This, This | True, True | Var, Var
  | While, While => true
  | Identifier x, Identifier y => String.eqb x y
  | String x, String y => String.eqb x y
  | Number x, Number y => PrimFloat.eqb x y
  | Error x, Error y => String.eqb x y
  | _, _ => false
  end.

End TokenType.

Module Scanner.

Import TokenType.

Record Token : Type := mkToken {
  t_type : TokenType;
  line : nat
}.

(** [#[derive(PartialEq)]] on [Token]: both fields are compared. *)
Definition Token_eqb (a b : Token) : bool :=
  TokenType.eqb (t_type a) (t_type b) && Nat.eqb (line a) (line b).

(** [start] and [current] are two iterators over the same characters;
    [current] runs ahead, [cur_len] counts the characters it consumed
    since [start] was last synchronised; [look_ahead] holds the one
    character [peek_next] took out of [current]. *)
Record Scanner : Type := mkScanner {
  start : list ascii;
  current : list ascii;
  look_ahead : option ascii;
  cur_len : nat;
  line_no : nat  (* the field [line] *)
}.

Definition new (source : list ascii) : Scanner :=
  mkScanner source source None 0 1.

(** The characters not consumed yet by [current]. *)
Definition remaining (s : Scanner) : list ascii :=
  match look_ahead s with
  | Some la => la :: current s
  | None => current s
  end.

Definition SM := ST Scanner.

Definition set_current (cs : list ascii) (s : Scanner) : Scanner :=
  mkScanner (start s) cs (look_ahead s) (cur_len s) (line_no s).
Definition set_look_ahead (la : option ascii) (s : Scanner) : Scanner :=
  mkScanner (start s) (current s) la (cur_len s) (line_no s).
Definition set_start_len (st : list ascii) (n : nat) (s : Scanner) : Scanner :=
  mkScanner st (current s) (look_ahead s) n (line_no s).
Definition incr_cur_len (s : Scanner) : Scanner :=
  mkScanner (start s) (current s) (look_ahead s) (S (cur_len s)) (line_no s).
Definition incr_line (s : Scanner) : Scanner :=
  mkScanner (start s) (current s) (look_ahead s) (cur_len s) (S (line_no s)).

Definition advance : SM (option ascii) := fun s =>
  match look_ahead s with
  | Some la => Done (Some la, incr_cur_len (set_look_ahead None s))
  | None =>
      match current s with
      | [] => Done (None, s)
      | c :: cs => Done (Some c, incr_cur_len (set_current cs s))
      end
  end.

Definition make_token (t : TokenType) : SM Token := fun s =>
  Done (mkToken t (line_no s), s).

Definition error_token (msg : string) : SM Token := make_token (Error msg).

(** [lexeme.push(self.start.next().unwrap())], [cur_len] times. *)
Fixpoint take_start (n : nat) (st : list ascii) : option (list ascii * list ascii) :=
  match n with
  | O => Some ([], st)
  | S n' =>
      match st with
      | [] => None
      | c :: st' =>
          match take_start n' st' with
          | Some (lex, rest) => Some (c :: lex, rest)
          | None => None
          end
      end
  end.

Definition unwrap_none := "called `Option::unwrap()` on a `None` value".

Definition scan_lexeme : SM (list ascii) := fun s =>
  match take_start (cur_len s) (start s) with
  | Some (lex, rest) => Done (lex, set_start_len rest 0 s)
  | None => Panicked unwrap_none
  end.

(** Skip the opening quote, take [1..(cur_len - 1)] characters, skip the
    closing quote; [cur_len - 1] overflows (a panic) when [cur_len = 0]. *)
Definition scan_str_lexeme : SM (list ascii) := fun s =>
  match cur_len s with
  | O => Panicked "attempt to subtract with overflow"
  | S n =>
      let st := tl (start s) in
      match take_start (n - 1) st with
      | Some (lex, rest) => Done (lex, set_start_len (tl rest) 0 s)
      | None => Panicked unwrap_none
      end
  end.

Definition peek : SM (option ascii) := fun s =>
  match look_ahead s with
  | Some la => Done (Some la, s)
  | None => Done (hd_error (current s), s)
  end.

Definition peek_next : SM (option ascii) := fun s =>
  match look_ahead s with
  | Some _ => Done (hd_error (current s), s)
  | None =>
      let s' := set_current (tl (current s)) (set_look_ahead (hd_error (current s)) s) in
      Done (hd_error (current s'), s')
  end.

(** A [while] loop of the scanner: every iteration that goes on consumes
    a character, so one more iteration than there are characters left
    is enough. *)
Definition while_ (body : SM bool) : SM unit := fun s =>
  loop_fuel (S (List.length (remaining s))) body s.

Definition is_digit := Float64.is_digit.

Definition is_allowed_for_identifier (c : ascii) : bool :=
  ((("a" <=? c)%char && (c <=? "z")%char)
   || (("A" <=? c)%char && (c <=? "Z")%char)
   || (c =? "_")%char)%bool.

Definition next_matches (c : ascii) : SM bool :=
  p <- peek ;;
  match p with
  | Some n => if (c =? n)%char then advance ;; ret true else ret false
  | None => ret false
  end.

Definition possible_two_char_token (cur_type : TokenType) (char_to_match : ascii)
    (possible_type : TokenType) : SM Token :=
  m <- next_matches char_to_match ;;
  make_token (if m then possible_type else cur_type).

Definition string : SM Token :=
  while_ (p <- peek ;;
          match p with
          | Some c =>
              if (c =? "034")%char then ret false
              else (if (c =? "010")%char then modify incr_line else ret tt) ;;
                   advance ;; ret true
          | None => ret false
          end) ;;
  p <- peek ;;
  match p with
  | None => error_token "Unterminated string"
  | Some _ =>
      advance ;;
      str_lexeme <- scan_str_lexeme ;;
      make_token (String (string_of_list_ascii str_lexeme))
  end.

(** One iteration of [while let Some('0'..='9') = self.peek() { self.advance(); }]. *)
Definition advance_while_digit_step : SM bool :=
  p <- peek ;;
  match p with
  | Some c => if is_digit c then advance ;; ret true else ret false
  | None => ret false
  end.

Definition advance_while_digit : SM unit := while_ advance_while_digit_step.

(** The fraction is taken only when the character after the '.' is a
    digit; [peek_next] may leave the '.' in [look_ahead]. *)
Definition number : SM Token :=
  advance_while_digit ;;
  p <- peek ;;
  (match p with
   | Some c =>
       if (c =? ".")%char then
         pn <- peek_next ;;
         match pn with
         | Some d => if is_digit d then advance ;; advance_while_digit else ret tt
         | None => ret tt
         end
       else ret tt
   | None => ret tt
   end) ;;
  num_lexeme <- scan_lexeme ;;
  match Float64.parse_f64 num_lexeme with
  | Some num => make_token (Number num)
  | None => panic "Illegally parsed number"
  end.

(** [&lexeme_bytes[from..]] panics when [from] exceeds the length. *)
Definition check_suffix (from : nat) (bs : list ascii) (suffix : String.string)
    (t : TokenType) : Outcome (option TokenType) :=
  if (List.length bs <? from)%nat then Panicked "slice index out of range"
  else if String.eqb (string_of_list_ascii (skipn from bs)) suffix
  then Done (Some t) else Done None.

Definition check_if_keyword (bs : list ascii) : Outcome (option TokenType) :=
  match bs with
  | [] => Panicked "index out of bounds"
  | b0 :: _ =>
      if (b0 =? "a")%char then check_suffix 1 bs "nd" And
      else if (b0 =? "c")%char then check_suffix 1 bs "lass" Class
      else if (b0 =? "e")%char then check_suffix 1 bs "lse" Else
      else if (b0 =? "i")%char then check_suffix 1 bs "f" If
      else if (b0 =? "n")%char then check_suffix 1 bs "il" Nil
      else if (b0 =? "o")%char then check_suffix 1 bs "r" Or
      else if (b0 =? "p")%char then check_suffix 1 bs "rint" Print
      else if (b0 =? "r")%char then check_suffix 1 bs "eturn" Return
      else if (b0 =? "s")%char then check_suffix 1 bs "uper" Super
      else if (b0 =? "v")%char then check_suffix 1 bs "ar" Var
      else if (b0 =? "w")%char then check_suffix 1 bs "hile" While
      else if (b0 =? "t")%char then
        match bs with
        | _ :: b1 :: _ =>
            if (b1 =? "h")%char then check_suffix 2 bs "is" This
            else if (b1 =? "r")%char then check_suffix 2 bs "ue" True
            else Done None
        | _ => Done None
        end
      else if (b0 =? "f")%char then
        match bs with
        | _ :: b1 :: _ =>
            if (b1 =? "a")%char then check_suffix 2 bs "lse" False
            else if (b1 =? "o")%char then check_suffix 2 bs "r" For
            else if (b1 =? "u")%char then check_suffix 2 bs "n" Fun
            else Done None
        | _ => Done None
        end
      else Done None
  end.

Definition keyword_or_identifier : SM Token :=
  lexeme <- scan_lexeme ;;
  fun s =>
    match check_if_keyword lexeme with
    | Done (Some keyword) => make_token keyword s
    | Done None => make_token (Identifier (string_of_list_ascii lexeme)) s
    | Panicked m => Panicked m
    | OutOfFuel => OutOfFuel
    end.

Definition identifier : SM Token :=
  while_ (p <- peek ;;
          match p with
          | Some c =>
              if is_allowed_for_identifier c then advance ;; ret true
              else ret false
          | None => ret false
          end) ;;
  keyword_or_identifier.

Definition match_char (c : ascii) : SM Token :=
  if (c =? "(")%char then make_token LeftParen
  else if (c =? ")")%char then make_token RightParen
  else if (c =? "{")%char then make_token LeftBrace
  else if (c =? "}")%char then make_token RightBrace
  else if (c =? ";")%char then make_token Semicolon
  else if (c =? ",")%char then make_token Comma
  else if (c =? ".")%char then make_token Dot
  else if (c =? "-")%char then make_token Minus
  else if (c =? "+")%char then make_token Plus
  else if (c =? "/")%char then make_token Slash
  else if (c =? "*")%char then make_token Star
  else if (c =? "!")%char then possible_two_char_token Bang "=" BangEqual
  else if (c =? "=")%char then possible_two_char_token Equal "=" EqualEqual
  else if (c =? ">")%char then possible_two_char_token Greater "=" GreaterEqual
  else if (c =? "<")%char then possible_two_char_token Less "=" LessEqual
  else if (c =? "034")%char then string
  else if is_digit c then number
  else if is_allowed_for_identifier c then identifier
  else make_token (Error "Unexpected character").

(** [while start.next() with cur_len > 0]: [start.next()] on an exhausted
    iterator does nothing, so this drops [cur_len] characters of [start]. *)
Definition sync_start : SM unit := fun s =>
  Done (tt, set_start_len (skipn (cur_len s) (start s)) 0 s).

Definition skip_if_comment : SM bool :=
  pn <- peek_next ;;
  match pn with
  | Some c =>
      if (c =? "/")%char then
        while_ (p <- peek ;;
                match p with
                | Some cc => if (cc =? "010")%char then ret false
                             else advance ;; ret true
                | None => ret false
                end) ;;
        ret true
      else ret false
  | None => ret false
  end.

Definition skip_whitespaces : SM unit :=
  while_ (p <- peek ;;
          match p with
          | Some c =>
              if ((c =? " ") || (c =? "013") || (c =? "009"))%char%bool
              then advance ;; ret true
              else if (c =? "010")%char then modify incr_line ;; advance ;; ret true
              else if (c =? "/")%char then skip_if_comment
              else ret false
          | None => ret false
          end) ;;
  sync_start.

(** [impl Iterator for Scanner]: [next]. *)
Definition next : SM (option Token) :=
  skip_whitespaces ;;
  c <- advance ;;
  match c with
  | Some c => t <- match_char c ;; ret (Some t)
  | None => ret None
  end.

(** The tokens of a whole source, as the tests of scanner.rs pull them. *)
Fixpoint tokens_fuel (fuel : nat) (s : Scanner) : Outcome (list Token) :=
  match fuel with
  | O => OutOfFuel
  | S f =>
      match next s with
      | Done (Some t, s') =>
          match tokens_fuel f s' with
          | Done ts => Done (t :: ts)
          | Panicked m => Panicked m
          | OutOfFuel => OutOfFuel
          end
      | Done (None, _) => Done []
      | Panicked m => Panicked m
      | OutOfFuel => OutOfFuel
      end
  end.

Definition tokens (source : String.string) : Outcome (list Token) :=
  let cs := list_ascii_of_string source in
  tokens_fuel (S (List.length cs)) (new cs).

End Scanner.

(** ** compiler.rs *)

Module Precedence.

Inductive Precedence : Type :=
| None | Assignment | Or | And | Equality | Comparison | Term | Factor
| Unary | Call | Primary.

(** The declaration order, which [#[derive(PartialOrd)]] compares. *)
Definition ord (p : Precedence) : nat :=
  match p with
  | None => 0 | Assignment => 1 | Or => 2 | And => 3 | Equality => 4
  | Comparison => 5 | Term => 6 | Factor => 7 | Unary => 8 | Call => 9
  | Primary => 10
  end.

Definition ltb (a b : Precedence) : bool := Nat.ltb (ord a) (ord b).

Definition next (p : Precedence) : Precedence :=
  match p with
  | None => Assignment
  | Assignment => Or
  | Or => And
  | And => Equality
  | Equality => Comparison
  | Comparison => Term
  | Term => Factor
  | Factor => Unary
  | Unary => Call
  | Call => Primary
  | Primary => Primary
  end.

(** [impl ParseRule for TokenType]. *)
Definition precedence (t : TokenType.TokenType) : Precedence :=
  match t with
  | TokenType.LeftParen => Call
  | TokenType.Dot => Call
  | TokenType.Minus => Term
  | TokenType.Plus => Term
  | TokenType.Slash => Factor
  | TokenType.Star => Factor
  | TokenType.BangEqual => Equality
  | TokenType.EqualEqual => Equality
  | TokenType.Greater => Comparison
  | TokenType.GreaterEqual => Comparison
  | TokenType.Less => Comparison
  | TokenType.LessEqual => Comparison
  | TokenType.And => And
  | TokenType.Or => Or
  | _ => None
  end.

End Precedence.

Module Compiler.

Import Common Scanner.

Inductive ErrorLocation : Type :=
| LocToken (t : Token)
| AtTheEnd.

Record Error : Type := mkError {
  location : ErrorLocation;
  msg : String.string
}.

(** [chunk: &'b mut Chunk] is held by value and handed back at the end. *)
Record Compiler : Type := mkCompiler {
  scanner : Scanner;
  current : option Token;
  previous : option Token;
  errors : list Error;
  panic_mode : bool;
  chunk : Chunk;
  last_token_line : nat
}.

Definition CM := ST Compiler.

Definition set_scanner (s : Scanner) (c : Compiler) : Compiler :=
  mkCompiler s (current c) (previous c) (errors c) (panic_mode c) (chunk c) (last_token_line c).
Definition set_current (t : option Token) (c : Compiler) : Compiler :=
  mkCompiler (scanner c) t (previous c) (errors c) (panic_mode c) (chunk c) (last_token_line c).
Definition set_previous (t : option Token) (c : Compiler) : Compiler :=
  mkCompiler (scanner c) (current c) t (errors c) (panic_mode c) (chunk c) (last_token_line c).
Definition set_chunk (ch : Chunk) (c : Compiler) : Compiler :=
  mkCompiler (scanner c) (current c) (previous c) (errors c) (panic_mode c) ch (last_token_line c).
Definition set_last_token_line (l : nat) (c : Compiler) : Compiler :=
  mkCompiler (scanner c) (current c) (previous c) (errors c) (panic_mode c) (chunk c) l.
Definition push_error (e : Error) (c : Compiler) : Compiler :=
  mkCompiler (scanner c) (current c) (previous c) (errors c ++ [e]) true (chunk c) (last_token_line c).

(** [self.scanner.next()] *)
Definition scanner_next : CM (option Token) := fun c =>
  match Scanner.next (scanner c) with
  | Done (t, s') => Done (t, set_scanner s' c)
  | Panicked m => Panicked m
  | OutOfFuel => OutOfFuel
  end.

(** [Compiler::new]: the first token is pulled without the error-token
    loop of [advance]. *)
Definition new (scanner : Scanner) (chunk : Chunk) : Outcome Compiler :=
  match Scanner.next scanner with
  | Done (current, scanner) =>
      Done (mkCompiler scanner current Datatypes.None [] false chunk 0)
  | Panicked m => Panicked m
  | OutOfFuel => OutOfFuel
  end.

Definition error (error_msg : String.string) (token : Token) : CM unit :=
  c <- get ;;
  if panic_mode c then ret tt
  else put (push_error (mkError (LocToken token) error_msg) c).

Definition error_at_the_end (error_msg : String.string) : CM unit :=
  c <- get ;;
  if panic_mode c then ret tt
  else put (push_error (mkError AtTheEnd error_msg) c).

(** One more iteration than characters left in the scanner: every error
    token that makes the loop go on consumed a character. *)
Definition advance : CM unit :=
  c <- get ;;
  put (let c := set_previous (current c) c in
       match previous c with
       | Some t => set_last_token_line (Scanner.line t) c
       | Datatypes.None => c
       end) ;;
  c <- get ;;
  loop_fuel (S (List.length (remaining (scanner c))))
    (t <- scanner_next ;;
     modify (set_current t) ;;
     match t with
     | Some t =>
         match t_type t with
         | TokenType.Error e => error e t ;; ret true
         | _ => ret false
         end
     | Datatypes.None => ret false
     end).

Definition consume (t_type' : TokenType.TokenType) (error_msg : String.string) : CM unit :=
  c <- get ;;
  match current c with
  | Some cur =>
      if TokenType.eqb (t_type cur) t_type' then advance
      else error error_msg cur
  | Datatypes.None => error_at_the_end error_msg
  end.

Definition emit_instruction (i : Instruction.Instruction) (token : Token) : CM unit :=
  modify (fun c => set_chunk (add_instruction (chunk c) i (Scanner.line token)) c).

Definition emit_instruction_for_last_token (i : Instruction.Instruction) : CM unit :=
  modify (fun c => set_chunk (add_instruction (chunk c) i (last_token_line c)) c).

Definition number (number_val : float) (token : Token) : CM unit :=
  c <- get ;;
  let (ch, constant) := add_constant (chunk c) (Value.Double number_val) in
  put (set_chunk ch c) ;;
  emit_instruction (Instruction.Constant constant) token.

(** The parse functions below take [parse_precedence] (at a smaller fuel)
    as their argument [pp]. *)
Section Rules.

Variable pp : Precedence.Precedence -> CM unit.

Definition expression : CM unit := pp Precedence.Assignment.

Definition grouping : CM unit :=
  expression ;;
  consume TokenType.RightParen "Expect to have ')' at the end of grouping expression".

Definition unary (op_token : Token) : CM unit :=
  expression ;;
  match t_type op_token with
  | TokenType.Minus => emit_instruction Instruction.Negate op_token
  | _ => panic "Can not invoke 'unary' for token type"
  end.

Definition binary (token : Token) : CM unit :=
  let op_type := t_type token in
  pp (Precedence.next (Precedence.precedence op_type)) ;;
  match op_type with
  | TokenType.Plus => emit_instruction_for_last_token Instruction.Add
  | TokenType.Minus => emit_instruction_for_last_token Instruction.Subtract
  | TokenType.Star => emit_instruction_for_last_token Instruction.Multiply
  | TokenType.Slash => emit_instruction_for_last_token Instruction.Divide
  | _ => panic "Can not invoke 'binary' for token type"
  end.

Definition prefix_rule (token : Token) : CM unit :=
  match t_type token with
  | TokenType.LeftParen => grouping
  | TokenType.Minus => unary token
  | TokenType.Number d => number d token
  | _ => error "Expect expression" token
  end.

Definition infix_rule (token : Token) : CM unit :=
  match t_type token with
  | TokenType.Minus | TokenType.Plus | TokenType.Star | TokenType.Slash =>
      binary token
  | _ => panic "Can't invoke infix rule on this token type"
  end.

(** [while let Some(current_token) = self.current() { ... }] *)
Fixpoint parse_loop (fuel : nat) (precedence : Precedence.Precedence) : CM unit :=
  match fuel with
  | O => out_of_fuel
  | S fuel' =>
      c <- get ;;
      match current c with
      | Datatypes.None => ret tt
      | Some current_token =>
          if Precedence.ltb (Precedence.precedence (t_type current_token)) precedence
          then ret tt
          else
            advance ;;
            c <- get ;;
            match previous c with
            | Datatypes.None => panic unwrap_none
            | Some previous => infix_rule previous ;; parse_loop fuel' precedence
            end
      end
  end.

End Rules.

(** [parse_precedence]; [fuel] bounds the depth of the recursion and the
    number of iterations of its loop. *)
Fixpoint parse_precedence (fuel : nat) (precedence : Precedence.Precedence) : CM unit :=
  match fuel with
  | O => out_of_fuel
  | S fuel' =>
      advance ;;
      c <- get ;;
      match previous c with
      | Some token =>
          prefix_rule (parse_precedence fuel') token ;;
          parse_loop (parse_precedence fuel') fuel' precedence
      | Datatypes.None => ret tt
      end
  end.

Definition finish_compiler : CM unit :=
  emit_instruction_for_last_token Instruction.Return.

(** The compiler after [expression(); finish_compiler()]: every token
    consumes a character, so the length of the source bounds the fuel. *)
Definition compile_session (source : String.string) : Outcome Compiler :=
  let cs := list_ascii_of_string source in
  match new (Scanner.new cs) Chunk_new with
  | Done comp =>
      match (expression (parse_precedence (S (List.length cs))) ;; finish_compiler) comp with
      | Done (_, comp) => Done comp
      | Panicked m => Panicked m
      | OutOfFuel => OutOfFuel
      end
  | Panicked m => Panicked m
  | OutOfFuel => OutOfFuel
  end.

Definition compile_to_chunk (source : String.string) : Outcome Chunk :=
  match compile_session source with
  | Done comp => Done (chunk comp)
  | Panicked m => Panicked m
  | OutOfFuel => OutOfFuel
  end.

(** [pub fn compile(source: &str)] returns [()]; its only effect is the
    printed disassembly, returned here as the printed lines. *)
Definition compile (source : String.string) : Outcome (list (nat * InstructionWithLine)) :=
  match compile_to_chunk source with
  | Done chunk => Done (disassemble chunk)
  | Panicked m => Panicked m
  | OutOfFuel => OutOfFuel
  end.

End Compiler.

(** ** vm.rs *)

Module Vm.

Import Common Instruction.

(** [stack: Vec<Value>]: pushed and popped at the end of the list. *)
Record VM : Type := mkVM {
  ip : nat;
  stack : list Value.Value
}.

Inductive InterpretResult : Type :=
| Ok
| CompileError
| RuntimeError.

Definition new : VM := mkVM 0 [].

Definition stack_push (vm : VM) (value : Value.Value) : VM :=
  mkVM (ip vm) (stack vm ++ [value]).

(** [self.stack.pop()] *)
Definition stack_pop (vm : VM) : option Value.Value * VM :=
  match rev (stack vm) with
  | [] => (Datatypes.None, vm)
  | v :: r => (Some v, mkVM (ip vm) (rev r))
  end.

(** [self.ip += 1; &chunk.instructions[self.ip - 1]] *)
Definition read_instruction (vm : VM) (chunk : Chunk) : Outcome (Instruction * VM) :=
  let vm' := mkVM (S (ip vm)) (stack vm) in
  match nth_error (instructions chunk) (ip vm) with
  | Some (IWL i _) => Done (i, vm')
  | Datatypes.None => Panicked "index out of bounds"
  end.

(** [binary_stack_op!]: pop the right operand, then the left one, push
    [l.op(&r)]; [Datatypes.None] is the early [return RuntimeError]. *)
Definition binary_stack_op (op : Value.Value -> Value.Value -> Value.Value)
    (vm : VM) : option VM :=
  match stack_pop vm with
  | (Some r, vm) =>
      match stack_pop vm with
      | (Some l, vm) => Some (stack_push vm (op l r))
      | (Datatypes.None, _) => Datatypes.None
      end
  | (Datatypes.None, _) => Datatypes.None
  end.

(** The [loop] of [interpret].  The result carries what [Return] printed
    ([println!("{:?}", self.stack_pop())]). *)
Fixpoint run (fuel : nat) (chunk : Chunk) (vm : VM)
    : Outcome (InterpretResult * list (option Value.Value)) :=
  match fuel with
  | O => OutOfFuel
  | S fuel' =>
      match read_instruction vm chunk with
      | Panicked m => Panicked m
      | OutOfFuel => OutOfFuel
      | Done (ins, vm) =>
          let binop op :=
            match binary_stack_op op vm with
            | Some vm => run fuel' chunk vm
            | Datatypes.None => Done (RuntimeError, [])
            end in
          match ins with
          | Return => Done (Ok, [fst (stack_pop vm)])
          | Constant c =>
              match read_constant chunk c with
              | Done value => run fuel' chunk (stack_push vm value)
              | Panicked m => Panicked m
              | OutOfFuel => OutOfFuel
              end
          | Negate =>
              match stack_pop vm with
              | (Some v, vm) => run fuel' chunk (stack_push vm (Value.negate v))
              | (Datatypes.None, _) => Done (RuntimeError, [])
              end
          | Add => binop Value.add
          | Multiply => binop Value.multiply
          | Divide => binop Value.divide
          | Subtract => binop Value.subtract
          end
      end
  end.

(** Every iteration moves [ip] one instruction on, and reading past the
    last instruction panics: that bounds the iterations. *)
Definition interpret (vm : VM) (chunk : Chunk)
    : Outcome (InterpretResult * list (option Value.Value)) :=
  run (S (List.length (instructions chunk) - ip vm)) chunk vm.

(** [interpret_source]: [compile(source); InterpretResult::Ok]; the
    result carries the disassembly [compile] printed. *)
Definition interpret_source (source : String.string)
    : Outcome (InterpretResult * list (nat * InstructionWithLine)) :=
  match Compiler.compile source with
  | Done printed => Done (Ok, printed)
  | Panicked m => Panicked m
  | OutOfFuel => OutOfFuel
  end.

End Vm.

(** ** Statements of the spec

    The spec's reading of token equality (C8): the variant of a token type
    and, for the kinds that carry one, its payload. *)
Module TokenSpec.

Import TokenType.

Definition kind (t : TokenType) : nat :=
  match t with
  | LeftParen => 0 | RightParen => 1 | LeftBrace => 2 | RightBrace => 3
  | Comma => 4 | Dot => 5 | Minus => 6 | Plus => 7 | Semicolon => 8
  | Slash => 9 | Star => 10 | Bang => 11 | BangEqual => 12 | Equal => 13
  | EqualEqual => 14 | Greater => 15 | GreaterEqual => 16 | Less => 17
  | LessEqual => 18 | Identifier _ => 19 | String _ => 20 | Number _ => 21
  | And => 22 | Class => 23 | Else => 24 | False => 25 | Fun => 26
  | For => 27 | If => 28 | Nil => 29 | Or => 30 | Print => 31
  | Return => 32 | Super => 33 | This => 34 | True => 35 | Var => 36
  | While => 37 | Error _ => 38
  end.

(** Payloads of the literal kinds (numbers by IEEE-754 [==]). *)
Definition literal_payload_match (a b : TokenType) : Prop :=
  match a, b with
  | Identifier x, Identifier y => x = y
  | String x, String y => x = y
  | Number x, Number y => PrimFloat.eqb x y = Datatypes.true
  | _, _ => Logic.True
  end.

(** The same, with the message of an error token as a payload too. *)
Definition payload_match (a b : TokenType) : Prop :=
  match a, b with
  | Error x, Error y => x = y
  | _, _ => literal_payload_match a b
  end.

End TokenSpec.

(** A scanner positioned at [cs], synchronised, at line [l]. *)
Definition scanner_at (cs : list ascii) (l : nat) : Scanner.Scanner :=
  Scanner.mkScanner cs cs None 0 l.

Definition starts_with_non_digit (rest : list ascii) : Prop :=
  match rest with
  | c :: _ => Float64.is_digit c = false
  | [] => True
  end.

(** A run of decimal digits. *)
Definition digits (l : list ascii) : Prop :=
  Forall (fun c => Float64.is_digit c = true) l.

Definition dot_then_digit (rest : list ascii) : Prop :=
  exists c r, rest = "."%char :: c :: r /\ Float64.is_digit c = true.

(** ** Measures and invariants used by the proofs

    The characters the scanner has not consumed yet bound everything the
    scanner and the compiler still do. *)
Module Measures.

Import Scanner.

Definition rem_len (s : Scanner) : nat := List.length (remaining s).

(** A scanner operation that never runs out of fuel and never gives a
    character back. *)
Definition WD {A} (op : SM A) : Prop :=
  forall s, match op s with
            | Done (_, s') => rem_len s' <= rem_len s
            | Panicked _ => Logic.True
            | OutOfFuel => Logic.False
            end.

(** A loop body that consumes a character whenever it asks to go on. *)
Definition strict_true (body : SM bool) : Prop :=
  forall s s', body s = Done (Datatypes.true, s') -> rem_len s' < rem_len s.

(** The characters left, plus one for a token in [current]. *)
Definition meas (c : Compiler.Compiler) : nat :=
  rem_len (Compiler.scanner c)
  + match Compiler.current c with Some _ => 1 | Datatypes.None => 0 end.

Definition not_return (i : Common.InstructionWithLine) : Prop :=
  match i with Common.IWL oc _ => oc <> Instruction.Return end.

(** Every [Constant(i)] of the chunk indexes its constant pool. *)
Definition chunk_wf (ch : Common.Chunk) : Prop :=
  forall k i line, nth_error (Common.instructions ch) k
                   = Some (Common.IWL (Instruction.Constant i) line) ->
                   i < List.length (Common.constants ch).

(** The invariant of a compiler between two parse steps: [current] is
    [None] only once the scanner is exhausted; [last_token_line] is the
    line of [previous]; no [Return] has been emitted; constant indices
    are in bounds. *)
Definition Inv (c : Compiler.Compiler) : Prop :=
  (Compiler.current c = Datatypes.None -> remaining (Compiler.scanner c) = [])
  /\ (forall t, Compiler.previous c = Some t -> Compiler.last_token_line c = line t)
  /\ Forall not_return (Common.instructions (Compiler.chunk c))
  /\ chunk_wf (Compiler.chunk c).

(** A compiler operation that keeps [Inv]. *)
Definition PInv {A} (op : Compiler.CM A) : Prop :=
  forall c a c', Inv c -> op c = Done (a, c') -> Inv c'.

(** A compiler operation that, from a state whose measure is below
    [bound], does not run out of fuel and does not increase the measure. *)
Definition TOT {A} (bound : nat) (op : Compiler.CM A) : Prop :=
  forall c, meas c < bound ->
            match op c with
            | Done (_, c') => meas c' <= meas c
            | Panicked _ => Logic.True
            | OutOfFuel => Logic.False
            end.

(** What one run of the token loop of [advance] keeps. *)
Definition adv_post (c c' : Compiler.Compiler) : Prop :=
  meas c' <= rem_len (Compiler.scanner c)
  /\ Compiler.previous c' = Compiler.previous c /\ Compiler.chunk c' = Compiler.chunk c
  /\ Compiler.last_token_line c' = Compiler.last_token_line c
  /\ (Compiler.current c' = Datatypes.None -> remaining (Compiler.scanner c') = [])
  /\ (remaining (Compiler.scanner c) = [] -> Compiler.current c' = Datatypes.None).

(** An instruction [emit_instruction] may add without breaking [Inv]. *)
Definition plain (i : Instruction.Instruction) : Prop :=
  match i with
  | Instruction.Return | Instruction.Constant _ => Logic.False
  | _ => Logic.True
  end.

(** Where the parse loop stops. *)
Definition exits (p : Precedence.Precedence) (c : Compiler.Compiler) : Prop :=
  Compiler.current c = Datatypes.None
  \/ exists t, Compiler.current c = Some t
               /\ Precedence.ltb (Precedence.precedence (Scanner.t_type t)) p = Datatypes.true.

End Measures.

(** ** util.rs and main.rs

    The file system is a parameter: [read_file_to_string] gives the text of
    a file or the [Display] text of the [io::Error]. What the program prints
    is a list of lines and disassembly listings; [process::exit(code)] and
    a normal return from [main] (exit status 0) give the exit status. *)
Module Util.

Inductive Result (A E : Type) : Type :=
| Ok (a : A)
| Err (e : E).
Arguments Ok {A E} a.
Arguments Err {A E} e.

Definition FileSystem : Type := String.string -> Result String.string String.string.

Definition read_file_to_string (fs : FileSystem) (file_name : String.string)
    : Result String.string String.string :=
  fs file_name.



Inductive Printed : Type :=
| Line (s : String.string)
| Listing (l : list (nat * Common.InstructionWithLine)).

(** [run_file] always ends the process with [process::exit]. *)
Definition run_file (fs : FileSystem) (file_name : String.string)
    : Outcome (list Printed * nat) :=
  match read_file_to_string fs file_name with
  | Err err => Done ([Line ("Unable to read script file: " ++ err)], 2)
  | Ok source =>
      match Vm.interpret_source source with
      | Done (r, printed) =>
          Done ([Listing printed],
                match r with
                | Vm.Ok => 0
                | Vm.RuntimeError => 1
                | Vm.CompileError => 2
                end)
      | Panicked m => Panicked m
      | OutOfFuel => OutOfFuel
      end
  end.



End Util.

(** ** The scanner's two iterators

    [start] runs behind [current]: the [cur_len] characters between them,
    then the characters not consumed yet. [k] is a lower bound on
    [cur_len]. *)
Module ScanSafety.

Import Scanner.

Definition SInv (k : nat) (s : Scanner) : Prop :=
  k <= cur_len s
  /\ exists pre, List.length pre = cur_len s /\ start s = pre ++ remaining s.

(** A scanner operation that keeps [SInv k] and neither panics nor runs
    out of fuel from a state where it holds. *)
Definition NP {A} (k : nat) (op : SM A) : Prop :=
  forall s, SInv k s ->
            match op s with
            | Done (_, s') => SInv k s'
            | _ => Logic.False
            end.

End ScanSafety.

(** ** Line numbers of the scanner *)
Module ScanLines.

Import Scanner.

(** A scanner operation that never moves the line counter back. *)
Definition Mono {A} (op : SM A) : Prop :=
  forall s, match op s with
            | Done (_, s') => line_no s <= line_no s'
            | _ => Logic.True
            end.

(** A scanner operation that ends by making its token: the token carries
    the line the scanner is on when it finishes. *)
Definition MkTok (op : SM Token) : Prop :=
  forall s, match op s with
            | Done (t, s') => line_no s <= line t /\ line t = line_no s'
            | _ => Logic.True
            end.

End ScanLines.

(** ** Invariants of a compilation *)
Module CompilerInv.

Import Compiler.

(** A compiler operation that, from a state where [P] holds, either
    finishes in a state where [P] holds, or panics with a message
    satisfying [Q] (running out of fuel is left open). *)
Definition Good {A} (P : Compiler -> Prop) (Q : String.string -> Prop) (op : CM A) : Prop :=
  forall c, P c ->
            match op c with
            | Done (_, c') => P c'
            | Panicked m => Q m
            | OutOfFuel => Logic.True
            end.

(** Out of panic mode no error has been recorded; in panic mode exactly
    one. *)
Definition EInv (c : Compiler) : Prop :=
  (panic_mode c = false /\ errors c = [])
  \/ (panic_mode c = true /\ exists e, errors c = [e]).

End CompilerInv.

(** * Properties *)

Module VmFacts.

Import Common Instruction Vm.

Lemma stack_pop_push (i : nat) (xs : list Value.Value) (x : Value.Value) :
  stack_pop (mkVM i (xs ++ [x])) = (Some x, mkVM i xs).
Proof.
  unfold stack_pop; simpl. rewrite rev_unit, rev_involutive. reflexivity.
Qed.

Lemma stack_pop_empty (i : nat) :
  stack_pop (mkVM i []) = (Datatypes.None, mkVM i []).
Proof. reflexivity. Qed.

Lemma stack_pop_none_iff (vm : VM) :
  fst (stack_pop vm) = Datatypes.None <-> stack vm = [].
Proof.
  destruct vm as [i st]; unfold stack_pop; simpl.
  destruct (rev st) as [|v r] eqn:E; simpl.
  - split; auto. intros _. apply (f_equal (@rev _)) in E.
    rewrite rev_involutive in E. exact E.
  - split; [discriminate|]. intros ->. discriminate.
Qed.

Lemma run_binop (fuel : nat) (chunk : Chunk) (vm : VM) (ins : Instruction)
    (line : nat) (op : Value.Value -> Value.Value -> Value.Value)
    (rest : list Value.Value) (l r : Value.Value) :
  nth_error (instructions chunk) (ip vm) = Some (IWL ins line) ->
  stack vm = rest ++ [l; r] ->
  (ins = Add /\ op = Value.add \/ ins = Subtract /\ op = Value.subtract
   \/ ins = Multiply /\ op = Value.multiply \/ ins = Divide /\ op = Value.divide) ->
  run (S fuel) chunk vm = run fuel chunk (mkVM (S (ip vm)) (rest ++ [op l r])).
Proof.
  intros Hi Hs Hop. simpl. unfold read_instruction. rewrite Hi.
  unfold binary_stack_op. rewrite Hs.
  replace (rest ++ [l; r]) with ((rest ++ [l]) ++ [r]) by (rewrite <- app_assoc; reflexivity).
  rewrite stack_pop_push, stack_pop_push.
  destruct Hop as [[-> ->] | [[-> ->] | [[-> ->] | [-> ->]]]]; reflexivity.
Qed.

End VmFacts.

Module TokenFacts.

Import TokenType TokenSpec.

Lemma eqb_spec (a b : TokenType) :
  TokenType.eqb a b = Datatypes.true <-> kind a = kind b /\ payload_match a b.
Proof.
  destruct a, b; simpl;
    rewrite ?String.eqb_eq; unfold literal_payload_match;
    split; intros; try tauto; try discriminate;
    try (destruct H; discriminate).
Qed.

End TokenFacts.

(** C1.  The compilation of "1 + 4 / 2" is the one the spec states, but
    running it prints -1.0, not 3.0: [Add] executes [Value::add], which
    the [binary_operator!] macro builds with [-]. *)
Theorem c1_one_plus_four_div_two :
  Compiler.compile_to_chunk "1 + 4 / 2" =
    Done (Common.mkChunk
            [Common.IWL (Instruction.Constant 0) 1; Common.IWL (Instruction.Constant 1) 1;
             Common.IWL (Instruction.Constant 2) 1; Common.IWL Instruction.Divide 1;
             Common.IWL Instruction.Add 1; Common.IWL Instruction.Return 1]
            [Value.Double 1; Value.Double 4; Value.Double 2]) /\
  Vm.interpret Vm.new
    (Common.mkChunk
       [Common.IWL (Instruction.Constant 0) 1; Common.IWL (Instruction.Constant 1) 1;
        Common.IWL (Instruction.Constant 2) 1; Common.IWL Instruction.Divide 1;
        Common.IWL Instruction.Add 1; Common.IWL Instruction.Return 1]
       [Value.Double 1; Value.Double 4; Value.Double 2])
  = Done (Vm.Ok, [Some (Value.Double (-1))]).
Proof. split; vm_compute; reflexivity. Qed.

(** C4.  A binary instruction pops the right operand, then the left one,
    and pushes [left op right]: [Subtract], [Multiply] and [Divide] push
    [l - r], [l * r] and [l / r], but [Add] pushes [l - r] as well. *)
Theorem c4_binary_operand_order :
  forall fuel chunk vm rest l r line,
  Vm.stack vm = rest ++ [Value.Double l; Value.Double r] ->
  (nth_error (Common.instructions chunk) (Vm.ip vm) = Some (Common.IWL Instruction.Add line) ->
   Vm.run (S fuel) chunk vm
   = Vm.run fuel chunk (Vm.mkVM (S (Vm.ip vm)) (rest ++ [Value.Double (l - r)%float]))) /\
  (nth_error (Common.instructions chunk) (Vm.ip vm) = Some (Common.IWL Instruction.Subtract line) ->
   Vm.run (S fuel) chunk vm
   = Vm.run fuel chunk (Vm.mkVM (S (Vm.ip vm)) (rest ++ [Value.Double (l - r)%float]))) /\
  (nth_error (Common.instructions chunk) (Vm.ip vm) = Some (Common.IWL Instruction.Multiply line) ->
   Vm.run (S fuel) chunk vm
   = Vm.run fuel chunk (Vm.mkVM (S (Vm.ip vm)) (rest ++ [Value.Double (l * r)%float]))) /\
  (nth_error (Common.instructions chunk) (Vm.ip vm) = Some (Common.IWL Instruction.Divide line) ->
   Vm.run (S fuel) chunk vm
   = Vm.run fuel chunk (Vm.mkVM (S (Vm.ip vm)) (rest ++ [Value.Double (l / r)%float]))).
Proof.
  intros fuel chunk vm rest l r line Hs.
  repeat split; intros Hi.
  - rewrite (VmFacts.run_binop fuel chunk vm _ line Value.add rest _ _ Hi Hs); tauto.
  - rewrite (VmFacts.run_binop fuel chunk vm _ line Value.subtract rest _ _ Hi Hs); tauto.
  - rewrite (VmFacts.run_binop fuel chunk vm _ line Value.multiply rest _ _ Hi Hs); tauto.
  - rewrite (VmFacts.run_binop fuel chunk vm _ line Value.divide rest _ _ Hi Hs); tauto.
Qed.

(** C5.  When [Negate] finds the stack empty, or a binary instruction
    finds fewer than two operands, the loop of [interpret] stops with
    [RuntimeError]; popping an empty stack is [None], never an access out
    of bounds. *)
Theorem c5_empty_pop_runtime_error :
  forall fuel chunk vm ins line,
  nth_error (Common.instructions chunk) (Vm.ip vm) = Some (Common.IWL ins line) ->
  (ins = Instruction.Negate /\ Vm.stack vm = []
   \/ (ins = Instruction.Add \/ ins = Instruction.Subtract
       \/ ins = Instruction.Multiply \/ ins = Instruction.Divide)
      /\ List.length (Vm.stack vm) < 2) ->
  Vm.run (S fuel) chunk vm = Done (Vm.RuntimeError, []) /\
  Vm.interpret vm chunk = Done (Vm.RuntimeError, []) /\
  (forall vm', fst (Vm.stack_pop vm') = None <-> Vm.stack vm' = []).
Proof.
  assert (Hrun : forall fuel chunk vm ins line,
    nth_error (Common.instructions chunk) (Vm.ip vm) = Some (Common.IWL ins line) ->
    (ins = Instruction.Negate /\ Vm.stack vm = []
     \/ (ins = Instruction.Add \/ ins = Instruction.Subtract
         \/ ins = Instruction.Multiply \/ ins = Instruction.Divide)
        /\ List.length (Vm.stack vm) < 2) ->
    Vm.run (S fuel) chunk vm = Done (Vm.RuntimeError, [])).
  { intros fuel chunk [i st] ins line Hi H; simpl in *.
    unfold Vm.read_instruction; simpl; rewrite Hi.
    destruct H as [[-> ->]|[Hins Hlen]]; [reflexivity|].
    destruct st as [|x [|y st]]; simpl in Hlen; [| |lia];
      destruct Hins as [ -> | [ -> | [ -> | -> ]]]; reflexivity. }
  intros fuel chunk vm ins line Hi H.
  split; [eauto|]. split; [unfold Vm.interpret; eauto|].
  exact VmFacts.stack_pop_none_iff.
Qed.

Lemma c5_empty_pop_runtime_error_witness :
  nth_error (Common.instructions
               (Common.mkChunk [Common.IWL Instruction.Negate 1; Common.IWL Instruction.Return 1] []))
            (Vm.ip Vm.new) = Some (Common.IWL Instruction.Negate 1) /\
  Vm.interpret Vm.new
    (Common.mkChunk [Common.IWL Instruction.Negate 1; Common.IWL Instruction.Return 1] [])
  = Done (Vm.RuntimeError, []).
Proof.
  split; [reflexivity|].
  apply (c5_empty_pop_runtime_error 1
           (Common.mkChunk [Common.IWL Instruction.Negate 1; Common.IWL Instruction.Return 1] [])
           Vm.new Instruction.Negate 1); [reflexivity | left; split; reflexivity].
Defined.

Lemma c4_binary_operand_order_witness :
  Vm.stack (Vm.mkVM 2 [Value.Double 5; Value.Double 3])
    = [] ++ [Value.Double 5; Value.Double 3] /\
  Vm.run 2
    (Common.mkChunk
       [Common.IWL (Instruction.Constant 0) 1; Common.IWL (Instruction.Constant 1) 1;
        Common.IWL Instruction.Add 1; Common.IWL Instruction.Return 1]
       [Value.Double 5; Value.Double 3])
    (Vm.mkVM 2 [Value.Double 5; Value.Double 3])
  = Vm.run 1
    (Common.mkChunk
       [Common.IWL (Instruction.Constant 0) 1; Common.IWL (Instruction.Constant 1) 1;
        Common.IWL Instruction.Add 1; Common.IWL Instruction.Return 1]
       [Value.Double 5; Value.Double 3])
    (Vm.mkVM 3 [Value.Double 2]) /\
  Vm.interpret Vm.new
    (Common.mkChunk
       [Common.IWL (Instruction.Constant 0) 1; Common.IWL (Instruction.Constant 1) 1;
        Common.IWL Instruction.Add 1; Common.IWL Instruction.Return 1]
       [Value.Double 5; Value.Double 3])
  = Done (Vm.Ok, [Some (Value.Double 2)]).
Proof.
  split; [reflexivity|]. split; [|vm_compute; reflexivity].
  refine (proj1 (c4_binary_operand_order 1
                   (Common.mkChunk
                      [Common.IWL (Instruction.Constant 0) 1; Common.IWL (Instruction.Constant 1) 1;
                       Common.IWL Instruction.Add 1; Common.IWL Instruction.Return 1]
                      [Value.Double 5; Value.Double 3])
                   (Vm.mkVM 2 [Value.Double 5; Value.Double 3])
                   [] 5%float 3%float 1 eq_refl) eq_refl).
Defined.

(** C8 (as amended).  Derived [PartialEq] on [Token] compares the line
    too: two tokens are equal iff their types are the same variant with
    equal payloads (identifier and string text, numbers by IEEE-754 [==],
    error messages) and their lines are equal. *)
Theorem c8_token_eq_with_line :
  forall t1 t2 : Scanner.Token,
  Scanner.Token_eqb t1 t2 = true <->
  TokenSpec.kind (Scanner.t_type t1) = TokenSpec.kind (Scanner.t_type t2) /\
  TokenSpec.payload_match (Scanner.t_type t1) (Scanner.t_type t2) /\
  Scanner.line t1 = Scanner.line t2.
Proof.
  intros t1 t2. unfold Scanner.Token_eqb.
  rewrite andb_true_iff, TokenFacts.eqb_spec, Nat.eqb_eq. tauto.
Qed.

(** C8 (as stated) fails: two [Plus] tokens on lines 1 and 2 have the same
    type and no payload, yet they compare unequal. *)
Lemma c8_line_not_excluded :
  ~ (forall t1 t2 : Scanner.Token,
       Scanner.Token_eqb t1 t2 = true <->
       TokenSpec.kind (Scanner.t_type t1) = TokenSpec.kind (Scanner.t_type t2) /\
       TokenSpec.literal_payload_match (Scanner.t_type t1) (Scanner.t_type t2)).
Proof.
  intros H.
  specialize (H (Scanner.mkToken TokenType.Plus 1) (Scanner.mkToken TokenType.Plus 2)).
  simpl in H. destruct H as [_ H].
  discriminate (H (conj eq_refl I)).
Qed.

Module ScannerFacts.

Import Scanner.

Lemma digit_cases (c : ascii) :
  Float64.is_digit c = true ->
  c = "0"%char \/ c = "1"%char \/ c = "2"%char \/ c = "3"%char \/ c = "4"%char \/
  c = "5"%char \/ c = "6"%char \/ c = "7"%char \/ c = "8"%char \/ c = "9"%char.
Proof.
  destruct c as [[] [] [] [] [] [] [] []]; cbv; intros H;
    first [discriminate H | tauto].
Qed.

Lemma loop_fuel_S {S} (fuel : nat) (body : ST S bool) (s : S) :
  loop_fuel (Datatypes.S fuel) body s
  = match body s with
    | Done (b, s') => if b then loop_fuel fuel body s' else Done (tt, s')
    | Panicked m => Panicked m
    | OutOfFuel => OutOfFuel
    end.
Proof. simpl. unfold bind. destruct (body s) as [[[] s']| |]; reflexivity. Qed.

Lemma take_start_app (xs ys : list ascii) (n : nat) :
  n = List.length xs -> take_start n (xs ++ ys) = Some (xs, ys).
Proof.
  intros ->. induction xs as [|x xs IH]; simpl; [reflexivity|]. rewrite IH. reflexivity.
Qed.

Lemma digit_prefix_digits (ds rest : list ascii) :
  digits ds -> starts_with_non_digit rest ->
  Float64.digit_prefix (ds ++ rest) = ds.
Proof.
  intros Hd Hr. induction Hd as [|d ds Hd0 _ IH]; simpl.
  - destruct rest as [|c r]; simpl in *; [reflexivity|]. rewrite Hr. reflexivity.
  - rewrite Hd0, IH. reflexivity.
Qed.

Lemma forallb_digits (fs : list ascii) :
  digits fs -> forallb Float64.is_digit fs = true.
Proof.
  intros H. induction H as [|f fs Hf _ IH]; simpl; [reflexivity|]. rewrite Hf, IH. reflexivity.
Qed.

Lemma parse_int (ds : list ascii) :
  ds <> [] -> digits ds ->
  Float64.parse_f64 ds = Some (Float64.of_decimal (Float64.digits_value 0 ds) 0).
Proof.
  intros Hne Hd. unfold Float64.parse_f64.
  pose proof (digit_prefix_digits ds [] Hd I) as E. rewrite app_nil_r in E. rewrite E.
  rewrite skipn_all. destruct ds as [|d ds]; [congruence|]. reflexivity.
Qed.

Lemma parse_frac (ds fs : list ascii) :
  ds <> [] -> digits ds -> digits fs ->
  Float64.parse_f64 (ds ++ "."%char :: fs)
  = Some (Float64.of_decimal (Float64.digits_value 0 (ds ++ fs)) (List.length fs)).
Proof.
  intros Hne Hd Hf. unfold Float64.parse_f64.
  rewrite (digit_prefix_digits ds ("."%char :: fs) Hd eq_refl).
  rewrite skipn_app, skipn_all, Nat.sub_diag. simpl.
  rewrite forallb_digits by exact Hf.
  destruct ds as [|d ds]; [congruence|]. reflexivity.
Qed.

Lemma awd_loop (ds rest st : list ascii) (n l fuel : nat) :
  digits ds -> starts_with_non_digit rest -> List.length ds < fuel ->
  loop_fuel fuel advance_while_digit_step (mkScanner st (ds ++ rest) None n l)
  = Done (tt, mkScanner st rest None (n + List.length ds) l).
Proof.
  intros Hd. revert n fuel.
  induction Hd as [|d ds Hd0 _ IH]; intros n fuel Hr Hf;
    (destruct fuel as [|fuel]; [simpl in Hf; lia|]); rewrite loop_fuel_S.
  - assert (E : advance_while_digit_step (mkScanner st rest None n l)
                = Done (false, mkScanner st rest None n l)).
    { unfold advance_while_digit_step, bind, peek, is_digit; simpl.
      destruct rest as [|c r]; simpl in *; [reflexivity|]. rewrite Hr. reflexivity. }
    simpl app. rewrite E, Nat.add_0_r. reflexivity.
  - assert (E : advance_while_digit_step (mkScanner st ((d :: ds) ++ rest) None n l)
                = Done (true, mkScanner st (ds ++ rest) None (S n) l)).
    { unfold advance_while_digit_step, bind, peek, is_digit; simpl.
      rewrite Hd0. reflexivity. }
    rewrite E, IH by (first [exact Hr | simpl in Hf; lia]).
    replace (n + List.length (d :: ds)) with (S n + List.length ds) by (simpl; lia). reflexivity.
Qed.

Lemma awd_spec (ds rest st : list ascii) (n l : nat) :
  digits ds -> starts_with_non_digit rest ->
  advance_while_digit (mkScanner st (ds ++ rest) None n l)
  = Done (tt, mkScanner st rest None (n + List.length ds) l).
Proof.
  intros Hd Hr. unfold advance_while_digit, while_.
  apply awd_loop; auto. unfold remaining; simpl. rewrite length_app. lia.
Qed.

Lemma next_digit_start (d : ascii) (xs : list ascii) (l : nat) :
  Float64.is_digit d = true ->
  next (scanner_at (d :: xs) l)
  = match number (mkScanner (d :: xs) xs None 1 l) with
    | Done (t, s') => Done (Some t, s')
    | Panicked m => Panicked m
    | OutOfFuel => OutOfFuel
    end.
Proof.
  intros Hd. apply digit_cases in Hd.
  destruct Hd as [->|[->|[->|[->|[->|[->|[->|[->|[->| ->]]]]]]]]]; reflexivity.
Qed.

Lemma number_nofrac (d : ascii) (ds rest : list ascii) (l : nat) :
  Float64.is_digit d = true -> digits ds -> starts_with_non_digit rest ->
  ~ dot_then_digit rest ->
  exists s', number (mkScanner (d :: ds ++ rest) (ds ++ rest) None 1 l)
    = Done (mkToken (TokenType.Number (Float64.of_decimal (Float64.digits_value 0 (d :: ds)) 0)) l, s')
    /\ remaining s' = rest /\ start s' = rest /\ cur_len s' = 0 /\ line_no s' = l.
Proof.
  intros Hd Hds Hr Hnd.
  assert (Hlex : take_start (S (List.length ds)) (d :: ds ++ rest) = Some (d :: ds, rest))
    by (apply (take_start_app (d :: ds) rest); reflexivity).
  assert (Hp : Float64.parse_f64 (d :: ds)
               = Some (Float64.of_decimal (Float64.digits_value 0 (d :: ds)) 0))
    by (apply parse_int; [discriminate | constructor; auto]).
  unfold number. unfold bind at 1. rewrite awd_spec by assumption.
  simpl (1 + _).
  remember (d :: ds ++ rest) as st eqn:Est. clear Est.
  remember (S (List.length ds)) as n eqn:En. clear En.
  destruct rest as [|c r].
  - exists (mkScanner [] [] None 0 l).
    unfold bind, peek, scan_lexeme; simpl. rewrite Hlex; simpl. rewrite Hp.
    repeat split.
  - simpl in Hr.
    destruct (Ascii.eqb_spec c ".") as [->|Hc].
    + destruct r as [|c' r].
      * exists (mkScanner ["."%char] [] (Some "."%char) 0 l).
        unfold bind, peek, peek_next, scan_lexeme; simpl. rewrite Hlex; simpl. rewrite Hp.
        repeat split.
      * assert (Hc' : is_digit c' = false).
        { unfold is_digit. destruct (Float64.is_digit c') eqn:E; [|reflexivity].
          exfalso. apply Hnd. exists c', r. split; [reflexivity | exact E]. }
        exists (mkScanner ("."%char :: c' :: r) (c' :: r) (Some "."%char) 0 l).
        unfold bind, peek, peek_next, scan_lexeme; simpl. rewrite Hc'; simpl.
        rewrite Hlex; simpl. rewrite Hp.
        repeat split.
    + exists (mkScanner (c :: r) (c :: r) None 0 l).
      unfold bind, peek, scan_lexeme; simpl.
      destruct (Ascii.eqb_spec c ".") as [Hc'|_]; [congruence|].
      unfold ret; simpl. rewrite Hlex; simpl. rewrite Hp.
      repeat split.
Qed.

Lemma number_frac (d f : ascii) (ds fs rest : list ascii) (l : nat) :
  Float64.is_digit d = true -> digits ds -> Float64.is_digit f = true -> digits fs ->
  starts_with_non_digit rest ->
  exists s', number (mkScanner (d :: ds ++ "."%char :: f :: fs ++ rest)
                               (ds ++ "."%char :: f :: fs ++ rest) None 1 l)
    = Done (mkToken (TokenType.Number
                       (Float64.of_decimal (Float64.digits_value 0 (d :: ds ++ f :: fs))
                                           (S (List.length fs)))) l, s')
    /\ remaining s' = rest /\ start s' = rest /\ cur_len s' = 0 /\ line_no s' = l.
Proof.
  intros Hd Hds Hf Hfs Hr.
  assert (Hlex : take_start (S (S (List.length ds + S (List.length fs))))
                            (d :: ds ++ "."%char :: f :: fs ++ rest)
                 = Some (d :: ds ++ "."%char :: f :: fs, rest)).
  { pose proof (take_start_app (d :: ds ++ "."%char :: f :: fs) rest
                  (S (S (List.length ds + S (List.length fs))))) as H.
    simpl in H. rewrite <- app_assoc in H. simpl in H. apply H.
    rewrite length_app. simpl. lia. }
  assert (Hp : Float64.parse_f64 (d :: ds ++ "."%char :: f :: fs)
               = Some (Float64.of_decimal (Float64.digits_value 0 (d :: ds ++ f :: fs))
                                          (S (List.length fs))))
    by (apply (parse_frac (d :: ds) (f :: fs)); [discriminate | constructor | constructor]; auto).
  unfold number. unfold bind at 1. rewrite awd_spec by (auto; reflexivity).
  simpl (1 + _).
  remember (d :: ds ++ "."%char :: f :: fs ++ rest) as st eqn:Est. clear Est.
  assert (E2 : advance_while_digit (mkScanner st (f :: fs ++ rest) None (S (S (List.length ds))) l)
               = Done (tt, mkScanner st rest None (S (S (List.length ds)) + S (List.length fs)) l))
    by (apply (awd_spec (f :: fs) rest st); [constructor |]; auto).
  exists (mkScanner rest rest None 0 l).
  unfold bind, peek, peek_next, advance, scan_lexeme, ret, make_token, is_digit.
  cbn -[advance_while_digit take_start Float64.parse_f64 Float64.is_digit].
  rewrite Hf.
  cbn -[advance_while_digit take_start Float64.parse_f64 Float64.is_digit].
  unfold incr_cur_len, set_look_ahead, set_current; cbn -[advance_while_digit take_start Float64.parse_f64 Float64.is_digit]. rewrite E2.
  cbn -[advance_while_digit take_start Float64.parse_f64 Float64.is_digit].
  replace (S (S (List.length ds) + S (List.length fs)))
    with (S (S (List.length ds + S (List.length fs)))) by lia.
  rewrite Hlex. simpl. rewrite Hp.
  repeat split.
Qed.

Lemma next_dot (s : Scanner) (r : list ascii) :
  remaining s = "."%char :: r ->
  exists s', next s = Done (Some (mkToken TokenType.Dot (line_no s)), s')
             /\ remaining s' = r.
Proof.
  destruct s as [st cur la n l]. unfold remaining; simpl.
  destruct la as [a|]; intros H.
  - injection H as -> ->. eexists; split; reflexivity.
  - subst cur. eexists; split; reflexivity.
Qed.

Lemma next_nofrac (d : ascii) (ds rest : list ascii) (l : nat) :
  Float64.is_digit d = true -> digits ds -> starts_with_non_digit rest ->
  ~ dot_then_digit rest ->
  exists s', next (scanner_at (d :: ds ++ rest) l)
    = Done (Some (mkToken (TokenType.Number
                             (Float64.of_decimal (Float64.digits_value 0 (d :: ds)) 0)) l), s')
    /\ remaining s' = rest /\ line_no s' = l.
Proof.
  intros Hd Hds Hr Hnd.
  destruct (number_nofrac d ds rest l Hd Hds Hr Hnd) as (s' & E & Hrem & _ & _ & Hl).
  exists s'. rewrite next_digit_start by exact Hd. rewrite E. auto.
Qed.

Lemma next_frac (d f : ascii) (ds fs rest : list ascii) (l : nat) :
  Float64.is_digit d = true -> digits ds -> Float64.is_digit f = true -> digits fs ->
  starts_with_non_digit rest ->
  exists s', next (scanner_at (d :: ds ++ "."%char :: f :: fs ++ rest) l)
    = Done (Some (mkToken (TokenType.Number
                       (Float64.of_decimal (Float64.digits_value 0 (d :: ds ++ f :: fs))
                                           (S (List.length fs)))) l), s')
    /\ remaining s' = rest /\ line_no s' = l.
Proof.
  intros Hd Hds Hf Hfs Hr.
  destruct (number_frac d f ds fs rest l Hd Hds Hf Hfs Hr) as (s' & E & Hrem & _ & _ & Hl).
  exists s'. rewrite next_digit_start by exact Hd. rewrite E. auto.
Qed.

End ScannerFacts.

(** C9: a digit starts a number. The lexer consumes the maximal digit run
    [d :: ds] (what follows it is not a digit). It consumes a following '.'
    and a further digit run [f :: fs] only when the character right after
    the '.' is a digit. Otherwise the number ends before the '.', which
    stays unconsumed and is returned by the next call of [next] as a
    separate [Dot] token; so "644.." lexes as Number 644.0, Dot, Dot. *)
Theorem c9_number_lexing :
  (forall (d : ascii) (ds rest : list ascii) (l : nat),
     Float64.is_digit d = true -> digits ds -> starts_with_non_digit rest ->
     ~ dot_then_digit rest ->
     exists s', Scanner.next (scanner_at (d :: ds ++ rest) l)
       = Done (Some (Scanner.mkToken (TokenType.Number
                       (Float64.of_decimal (Float64.digits_value 0 (d :: ds)) 0)) l), s')
       /\ Scanner.remaining s' = rest
       /\ forall r, rest = "."%char :: r ->
          exists s'', Scanner.next s' = Done (Some (Scanner.mkToken TokenType.Dot l), s'')
                      /\ Scanner.remaining s'' = r)
  /\ (forall (d f : ascii) (ds fs rest : list ascii) (l : nat),
     Float64.is_digit d = true -> digits ds -> Float64.is_digit f = true -> digits fs ->
     starts_with_non_digit rest ->
     exists s', Scanner.next (scanner_at (d :: ds ++ "."%char :: f :: fs ++ rest) l)
       = Done (Some (Scanner.mkToken (TokenType.Number
                       (Float64.of_decimal (Float64.digits_value 0 (d :: ds ++ f :: fs))
                                           (S (List.length fs)))) l), s')
       /\ Scanner.remaining s' = rest)
  /\ Scanner.tokens "644.."
     = Done [Scanner.mkToken (TokenType.Number 644%float) 1;
             Scanner.mkToken TokenType.Dot 1; Scanner.mkToken TokenType.Dot 1].
Proof.
  split; [|split].
  - intros d ds rest l Hd Hds Hr Hnd.
    destruct (ScannerFacts.next_nofrac d ds rest l Hd Hds Hr Hnd) as (s' & E & Hrem & Hl).
    exists s'. split; [exact E|]. split; [exact Hrem|].
    intros r ->. rewrite <- Hl. apply ScannerFacts.next_dot. exact Hrem.
  - intros d f ds fs rest l Hd Hds Hf Hfs Hr.
    destruct (ScannerFacts.next_frac d f ds fs rest l Hd Hds Hf Hfs Hr) as (s' & E & Hrem & _).
    exists s'. split; assumption.
  - vm_compute. reflexivity.
Qed.

Lemma c9_number_lexing_witness :
  exists s', Scanner.next (scanner_at ["6"; "4"; "4"; "."; "."]%char 1)
    = Done (Some (Scanner.mkToken (TokenType.Number
                    (Float64.of_decimal (Float64.digits_value 0 ["6"; "4"; "4"]%char) 0)) 1), s')
    /\ Scanner.remaining s' = ["."; "."]%char
    /\ forall r, ["."; "."]%char = "."%char :: r ->
       exists s'', Scanner.next s' = Done (Some (Scanner.mkToken TokenType.Dot 1), s'')
                   /\ Scanner.remaining s'' = r.
Proof.
  apply (proj1 c9_number_lexing "6"%char ["4"; "4"]%char ["."; "."]%char 1).
  - reflexivity.
  - repeat constructor.
  - reflexivity.
  - intros (c & r & E & Hc). injection E as Ec Er. subst c. discriminate Hc.
Defined.
Module LoopFacts.

Lemma loop_total {St} (m : St -> nat) (Post : St -> St -> Prop) (body : ST St bool) :
  (forall s, match body s with
             | Done (b, s') => Post s s' /\ (b = Datatypes.true -> m s' < m s)
             | Panicked _ => Logic.True
             | OutOfFuel => Logic.False
             end) ->
  (forall s1 s2 s3, Post s1 s2 -> m s2 < m s1 -> Post s2 s3 -> Post s1 s3) ->
  forall n s, m s < n ->
  match loop_fuel n body s with
  | Done (_, s') => Post s s'
  | Panicked _ => Logic.True
  | OutOfFuel => Logic.False
  end.
Proof.
  intros Hb Ht n. induction n as [|n IH]; intros s Hs; [lia|].
  simpl. unfold bind. specialize (Hb s).
  destruct (body s) as [[b s1]| |]; auto.
  destruct Hb as [HP Hlt]. destruct b.
  - specialize (Hlt eq_refl). specialize (IH s1 ltac:(lia)).
    destruct (loop_fuel n body s1) as [[[] s2]| |]; auto. eapply Ht; eauto.
  - exact HP.
Qed.

End LoopFacts.

Module ScannerTotal.

Import Scanner Measures.

Lemma WD_ret {A} (a : A) : WD (ret a).
Proof. intros s. unfold ret. lia. Qed.

Lemma WD_bind {A B} (a : SM A) (k : A -> SM B) :
  WD a -> (forall x, WD (k x)) -> WD (bind a k).
Proof.
  intros Ha Hk s. unfold bind. specialize (Ha s).
  destruct (a s) as [[x s1]| |]; auto.
  specialize (Hk x s1). destruct (k x s1) as [[y s2]| |]; auto. lia.
Qed.

Lemma WD_panic {A} (m : String.string) : WD (A := A) (panic m).
Proof. intros s. exact I. Qed.

Lemma WD_peek : WD peek.
Proof. intros [st cur [la|] n l]; simpl; lia. Qed.

Lemma WD_peek_next : WD peek_next.
Proof.
  intros [st cur [la|] n l]; unfold peek_next, rem_len, remaining; simpl; [lia|].
  destruct cur; simpl; lia.
Qed.

Lemma WD_advance : WD advance.
Proof.
  intros [st cur [la|] n l]; unfold advance, rem_len, remaining; simpl; [lia|].
  destruct cur; simpl; lia.
Qed.

Lemma WD_make_token (t : TokenType.TokenType) : WD (make_token t).
Proof. intros s. unfold make_token. lia. Qed.

Lemma WD_incr_line : WD (modify incr_line).
Proof. intros [st cur [la|] n l]; unfold modify, rem_len, remaining; simpl; lia. Qed.

Lemma WD_scan_lexeme : WD scan_lexeme.
Proof.
  intros s. unfold scan_lexeme. destruct (take_start _ _) as [[lex r]|]; [|exact I].
  destruct s as [st cur [la|] n l]; unfold rem_len, remaining; simpl; lia.
Qed.

Lemma WD_scan_str_lexeme : WD scan_str_lexeme.
Proof.
  intros s. unfold scan_str_lexeme. destruct (cur_len s); [exact I|].
  destruct (take_start _ _) as [[lex r]|]; [|exact I].
  destruct s as [st cur [la|] n' l]; unfold rem_len, remaining; simpl; lia.
Qed.

Lemma WD_sync_start : WD sync_start.
Proof. intros [st cur [la|] n l]; unfold sync_start, rem_len, remaining; simpl; lia. Qed.

Lemma WD_while (body : SM bool) : WD body -> strict_true body -> WD (while_ body).
Proof.
  intros Hw Hs s. unfold while_.
  pose proof (LoopFacts.loop_total rem_len (fun s s' => rem_len s' <= rem_len s) body)
    as L.
  refine (L _ _ (S (List.length (remaining s))) s _).
  - intros s0. specialize (Hw s0). specialize (Hs s0).
    destruct (body s0) as [[b s1]| |]; auto.
    split; [exact Hw | intros ->; apply Hs; reflexivity].
  - intros; lia.
  - unfold rem_len. lia.
Qed.

Ltac wd :=
  repeat match goal with
  | |- WD (bind _ _) => apply WD_bind; [|intro; cbv beta]
  | |- WD (ret _) => apply WD_ret
  | |- WD (panic _) => apply WD_panic
  | |- WD peek => apply WD_peek
  | |- WD peek_next => apply WD_peek_next
  | |- WD advance => apply WD_advance
  | |- WD (make_token _) => apply WD_make_token
  | |- WD (error_token _) => apply WD_make_token
  | |- WD (modify incr_line) => apply WD_incr_line
  | |- WD scan_lexeme => apply WD_scan_lexeme
  | |- WD scan_str_lexeme => apply WD_scan_str_lexeme
  | |- WD sync_start => apply WD_sync_start
  | |- WD (while_ _) => apply WD_while
  | |- WD (match ?x with _ => _ end) => destruct x
  end.

Ltac strict :=
  let s := fresh "s" in let s' := fresh "s'" in let H := fresh "H" in
  let st := fresh "st" in let cur := fresh "cur" in let la := fresh "la" in
  let n := fresh "n" in let l := fresh "l" in let c0 := fresh "c" in
  intros s s' H; destruct s as [st cur [la|] n l]; [|destruct cur as [|c0 cur]];
  unfold bind, peek, advance, ret, modify, incr_line in H; simpl in H;
  repeat match type of H with
         | context [if ?b then _ else _] => destruct b
         end;
  try discriminate H; injection H as H; subst s'; unfold rem_len, remaining; simpl; lia.

Lemma strict_awd : strict_true advance_while_digit_step.
Proof. unfold advance_while_digit_step. strict. Qed.

Lemma WD_awd : WD advance_while_digit.
Proof. unfold advance_while_digit, advance_while_digit_step. wd. apply strict_awd. Qed.

Lemma WD_string : WD string.
Proof. unfold string. wd. strict. Qed.

Lemma WD_number : WD number.
Proof.
  unfold number. wd; try apply WD_awd.
Qed.

Lemma check_if_keyword_fuel (bs : list ascii) : check_if_keyword bs <> OutOfFuel.
Proof.
  unfold check_if_keyword, check_suffix.
  destruct bs as [|b0 [|b1 r]];
  repeat match goal with
         | |- context [if ?b then _ else _] => destruct b
         end; discriminate.
Qed.

Lemma WD_keyword_or_identifier : WD keyword_or_identifier.
Proof.
  unfold keyword_or_identifier. wd. intros s.
  pose proof (check_if_keyword_fuel x).
  destruct (check_if_keyword x) as [[k|]| |]; simpl; auto.
Qed.

Lemma WD_identifier : WD identifier.
Proof. unfold identifier. wd; [strict | apply WD_keyword_or_identifier]. Qed.

Lemma WD_next_matches (c : ascii) : WD (next_matches c).
Proof. unfold next_matches. wd. Qed.

Lemma WD_match_char (c : ascii) : WD (match_char c).
Proof.
  unfold match_char, possible_two_char_token.
  repeat match goal with
         | |- WD (if ?b then _ else _) => destruct b
         end;
  wd; first [apply WD_next_matches | apply WD_string | apply WD_number | apply WD_identifier].
Qed.

Lemma peek_eq (s : Scanner) : peek s = Done (hd_error (remaining s), s).
Proof. destruct s as [st cur [la|] n l]; reflexivity. Qed.

Lemma adv_cons (s : Scanner) (c : ascii) (r : list ascii) :
  remaining s = c :: r ->
  exists s1, advance s = Done (Some c, s1) /\ remaining s1 = r /\ line_no s1 = line_no s.
Proof.
  destruct s as [st cur [la|] n l]; unfold remaining; simpl; intros H.
  - injection H as -> ->. eexists; repeat split.
  - subst cur. eexists; repeat split.
Qed.

Lemma adv_nil (s : Scanner) : remaining s = [] -> advance s = Done (Datatypes.None, s).
Proof.
  destruct s as [st cur [la|] n l]; unfold remaining; simpl; intros H; [discriminate|].
  subst cur. reflexivity.
Qed.

Lemma remaining_incr_line (s : Scanner) : remaining (incr_line s) = remaining s.
Proof. destruct s as [st cur [la|] n l]; reflexivity. Qed.

Lemma while_first_strict (B : SM bool) (s s1 : Scanner) :
  WD B -> strict_true B -> B s = Done (Datatypes.true, s1) ->
  match while_ B s with
  | Done (_, s') => rem_len s' < rem_len s
  | Panicked _ => Logic.True
  | OutOfFuel => Logic.False
  end.
Proof.
  intros Hw Hs HB. unfold while_.
  assert (E : loop_fuel (S (List.length (remaining s))) B s
              = loop_fuel (List.length (remaining s)) B s1)
    by (simpl; unfold bind; rewrite HB; reflexivity).
  rewrite E. pose proof (Hs _ _ HB) as Hlt.
  assert (L : match loop_fuel (List.length (remaining s)) B s1 with
              | Done (_, s') => rem_len s' <= rem_len s1
              | Panicked _ => Logic.True
              | OutOfFuel => Logic.False
              end).
  { apply (LoopFacts.loop_total rem_len (fun s s' => rem_len s' <= rem_len s) B).
    - intros s0. specialize (Hw s0). specialize (Hs s0).
      destruct (B s0) as [[b s2]| |]; auto.
      split; [exact Hw | intros ->; apply Hs; reflexivity].
    - intros; lia.
    - exact Hlt. }
  destruct (loop_fuel _ B s1) as [[[] s2]| |]; auto. lia.
Qed.

Lemma WD_skip_if_comment : WD skip_if_comment.
Proof. unfold skip_if_comment. wd. strict. Qed.

Lemma sic_strict (s s' : Scanner) :
  hd_error (remaining s) = Some "/"%char ->
  skip_if_comment s = Done (Datatypes.true, s') -> rem_len s' < rem_len s.
Proof.
  intros Hh H. unfold skip_if_comment, bind at 1, peek_next in H.
  assert (Hs : exists st cur n l, look_ahead s = Datatypes.None /\ s = mkScanner st ("/"%char :: cur) Datatypes.None n l
                                \/ s = mkScanner st cur (Some "/"%char) n l).
  { destruct s as [st cur [la|] n l]; simpl in Hh.
    - injection Hh as ->. exists st, cur, n, l. right. reflexivity.
    - destruct cur as [|c cur]; [discriminate|]. injection Hh as ->.
      exists st, cur, n, l. left. split; reflexivity. }
  destruct Hs as (st & cur & n & l & [[_ ->] | ->]); simpl in H;
  destruct cur as [|c cur]; simpl in H; try discriminate;
  destruct (c =? "/")%char; try discriminate;
  match type of H with
  | context [bind (while_ ?B) _ ?s0] =>
      assert (W : match while_ B s0 with
                  | Done (_, s') => rem_len s' < rem_len s0
                  | Panicked _ => Logic.True
                  | OutOfFuel => Logic.False
                  end)
        by (eapply while_first_strict; [wd | strict | reflexivity]);
      unfold bind at 1 in H;
      remember (while_ B s0) as w eqn:Ew; clear Ew;
      unfold ret in H;
      destruct w as [[[] s2]| |]; try discriminate;
      injection H as H; subst s'; revert W; unfold rem_len, remaining; simpl; lia
  end.
Qed.

Lemma skip_ws_body_strict :
  strict_true (p <- peek ;;
          match p with
          | Some c =>
              if ((c =? " ") || (c =? "013") || (c =? "009"))%char%bool
              then advance ;; ret Datatypes.true
              else if (c =? "010")%char then modify incr_line ;; advance ;; ret Datatypes.true
              else if (c =? "/")%char then skip_if_comment
              else ret Datatypes.false
          | Datatypes.None => ret Datatypes.false
          end).
Proof.
  intros s s' H. unfold bind at 1 in H. rewrite peek_eq in H.
  destruct (remaining s) as [|c r] eqn:E; simpl in H; [discriminate|].
  destruct (((c =? " ") || (c =? "013") || (c =? "009"))%char%bool).
  - destruct (adv_cons s c r E) as (s1 & A & R & _).
    unfold bind in H. rewrite A in H. injection H as H. subst s'.
    unfold rem_len. rewrite R, E. simpl. lia.
  - destruct (c =? "010")%char.
    + unfold bind, modify in H.
      assert (E' : remaining (incr_line s) = c :: r) by (rewrite remaining_incr_line; exact E).
      destruct (adv_cons _ c r E') as (s1 & A & R & _).
      rewrite A in H. injection H as H. subst s'.
      unfold rem_len. rewrite R, E. simpl. lia.
    + destruct (Ascii.eqb_spec c "/"%char) as [->|]; [|discriminate].
      apply sic_strict; [rewrite E; reflexivity | exact H].
Qed.

Lemma WD_skip_whitespaces : WD skip_whitespaces.
Proof.
  unfold skip_whitespaces. apply WD_bind; [|intros; apply WD_sync_start].
  apply WD_while; [wd; apply WD_skip_if_comment | apply skip_ws_body_strict].
Qed.

(** [Scanner::next] never runs out of fuel; a token consumes a character,
    and [None] comes only from an exhausted scanner. *)
Lemma next_spec (s : Scanner) :
  match next s with
  | Done (Some _, s') => rem_len s' < rem_len s
  | Done (Datatypes.None, s') => remaining s' = []
  | Panicked _ => Logic.True
  | OutOfFuel => Logic.False
  end.
Proof.
  unfold next, bind at 1. pose proof (WD_skip_whitespaces s) as W.
  destruct (skip_whitespaces s) as [[[] s1]| |]; auto.
  unfold bind. destruct (remaining s1) as [|c r] eqn:E.
  - rewrite (adv_nil s1 E). unfold ret. exact E.
  - destruct (adv_cons s1 c r E) as (s2 & A & R & _). rewrite A.
    pose proof (WD_match_char c s2) as M.
    destruct (match_char c s2) as [[t s3]| |]; auto.
    unfold ret. unfold rem_len in *. rewrite R, E in *. simpl in *. lia.
Qed.

Lemma next_nil (s : Scanner) :
  remaining s = [] -> exists s', next s = Done (Datatypes.None, s') /\ remaining s' = [].
Proof.
  destruct s as [st cur [la|] n l]; unfold remaining; simpl; intros H; [discriminate|].
  subst cur. eexists; split; reflexivity.
Qed.

End ScannerTotal.

Module CompilerFacts.

Import Compiler Measures.

Lemma meas_eq (c : Compiler) :
  meas c = rem_len (scanner c) + match current c with Some _ => 1 | Datatypes.None => 0 end.
Proof. reflexivity. Qed.


Lemma error_state (e : String.string) (t : Scanner.Token) (c : Compiler) :
  exists c', error e t c = Done (tt, c')
    /\ scanner c' = scanner c /\ current c' = current c /\ previous c' = previous c
    /\ chunk c' = chunk c /\ last_token_line c' = last_token_line c.
Proof.
  unfold error, bind, get, ret, put. destruct (panic_mode c).
  - exists c. repeat split.
  - eexists. repeat split.
Qed.

Lemma error_at_the_end_state (e : String.string) (c : Compiler) :
  exists c', error_at_the_end e c = Done (tt, c')
    /\ scanner c' = scanner c /\ current c' = current c /\ previous c' = previous c
    /\ chunk c' = chunk c /\ last_token_line c' = last_token_line c.
Proof.
  unfold error_at_the_end, bind, get, ret, put. destruct (panic_mode c).
  - exists c. repeat split.
  - eexists. repeat split.
Qed.

Lemma advance_spec (c : Compiler) :
  match advance c with
  | Done (_, c') =>
      meas c' + match current c with Some _ => 1 | Datatypes.None => 0 end <= meas c
      /\ previous c' = current c /\ chunk c' = chunk c
      /\ (forall t, current c = Some t -> last_token_line c' = Scanner.line t)
      /\ (current c = Datatypes.None -> last_token_line c' = last_token_line c)
      /\ (current c' = Datatypes.None -> Scanner.remaining (scanner c') = [])
      /\ (Scanner.remaining (scanner c) = [] -> current c' = Datatypes.None)
  | Panicked _ => Logic.True
  | OutOfFuel => Logic.False
  end.
Proof.
  unfold advance, bind at 1, get at 1. unfold bind at 1, put at 1.
  unfold bind at 1, get at 1.
  set (c1 := let c0 := set_previous (current c) c in
             match previous c0 with
             | Some t => set_last_token_line (Scanner.line t) c0
             | Datatypes.None => c0
             end).
  assert (H1 : scanner c1 = scanner c /\ current c1 = current c /\ previous c1 = current c
               /\ chunk c1 = chunk c
               /\ last_token_line c1 = match current c with
                                       | Some t => Scanner.line t
                                       | Datatypes.None => last_token_line c end)
    by (subst c1; destruct (current c) eqn:E; simpl; repeat split; auto).
  match goal with
  | |- context [loop_fuel ?n ?B c1] =>
      assert (L : match loop_fuel n B c1 with
                  | Done (_, c') => adv_post c1 c'
                  | Panicked _ => Logic.True
                  | OutOfFuel => Logic.False
                  end);
      [ apply (LoopFacts.loop_total (fun c => rem_len (scanner c)) adv_post B);
        [ | | unfold rem_len; lia ]
      | destruct (loop_fuel n B c1) as [[[] c']| |]; auto ]
  end.
  - intros c0. unfold scanner_next, bind at 1.
    pose proof (ScannerTotal.next_spec (scanner c0)) as N.
    destruct (Scanner.next (scanner c0)) as [[[t|] s']| |]; auto.
    + unfold bind, modify.
      assert (Hf : adv_post c0 (set_current (Some t) (set_scanner s' c0))).
      { unfold adv_post. rewrite meas_eq. simpl. repeat split.
        - lia.
        - intros E; discriminate E.
        - intros E. unfold rem_len in N. rewrite E in N. simpl in N. lia. }
      destruct (Scanner.t_type t); unfold ret;
        try (split; [exact Hf | intros E; discriminate E]).
      lazymatch goal with
      | |- context [error ?m t ?cc] =>
          destruct (error_state m t cc) as (c2 & -> & Hs & Hc & Hp & Hch & Hl)
      end.
      split.
      * unfold adv_post. rewrite meas_eq, Hs, Hc, Hp, Hch, Hl. simpl. repeat split.
        -- lia.
        -- intros E; discriminate E.
        -- intros E. unfold rem_len in N. rewrite E in N. simpl in N. lia.
      * intros _. rewrite Hs. exact N.
    + unfold bind, modify, ret. split; [|discriminate].
      unfold adv_post. rewrite meas_eq. simpl. unfold rem_len at 1. rewrite N.
      repeat split; auto. simpl. lia.
  - intros x y z [P1 [P2 [P3 [P4 [P5 P6]]]]] Hlt [Q1 [Q2 [Q3 [Q4 [Q5 Q6]]]]].
    unfold adv_post. split; [lia|]. split; [congruence|]. split; [congruence|].
    split; [congruence|]. split; [exact Q5|].
    intros E. unfold rem_len in Hlt. rewrite E in Hlt. simpl in Hlt. lia.
  - destruct L as [P1 [P2 [P3 [P4 [P5 P6]]]]].
    destruct H1 as [E1 [E2 [E3 [E4 E5]]]].
    rewrite E1 in P1, P6. rewrite E3 in P2. rewrite E4 in P3. rewrite E5 in P4.
    repeat split; auto.
    + rewrite (meas_eq c). lia.
    + intros t Ht. rewrite Ht in P4. exact P4.
    + intros Ht. rewrite Ht in P4. exact P4.
Qed.


Lemma wf_add_instruction (ch : Common.Chunk) (i : Instruction.Instruction) (line : nat) :
  chunk_wf ch -> (forall k, i <> Instruction.Constant k) ->
  chunk_wf (Common.add_instruction ch i line).
Proof.
  intros W Hi k j l' E. unfold Common.add_instruction in E; simpl in E |- *.
  destruct (Nat.lt_ge_cases k (List.length (Common.instructions ch))) as [Hk|Hk].
  - rewrite nth_error_app1 in E by exact Hk. exact (W k j l' E).
  - rewrite nth_error_app2 in E by exact Hk.
    destruct (k - List.length (Common.instructions ch)) as [|m]; simpl in E.
    + injection E as E. exfalso. exact (Hi j E).
    + destruct m; discriminate E.
Qed.

Lemma wf_number (ch : Common.Chunk) (v : Value.Value) (line : nat) :
  chunk_wf ch ->
  chunk_wf (Common.add_instruction (fst (Common.add_constant ch v))
              (Instruction.Constant (snd (Common.add_constant ch v))) line).
Proof.
  intros W k j l' E. unfold Common.add_instruction, Common.add_constant in *; simpl in E |- *.
  rewrite length_app. simpl.
  destruct (Nat.lt_ge_cases k (List.length (Common.instructions ch))) as [Hk|Hk].
  - rewrite nth_error_app1 in E by exact Hk. specialize (W k j l' E). lia.
  - rewrite nth_error_app2 in E by exact Hk.
    destruct (k - List.length (Common.instructions ch)) as [|m]; simpl in E.
    + injection E as E. rewrite length_app in E. simpl in E. lia.
    + destruct m; discriminate E.
Qed.

Lemma Forall_add_instruction (ch : Common.Chunk) (i : Instruction.Instruction) (line : nat) :
  Forall not_return (Common.instructions ch) -> i <> Instruction.Return ->
  Forall not_return (Common.instructions (Common.add_instruction ch i line)).
Proof.
  intros F Hi. unfold Common.add_instruction; simpl.
  apply Forall_app. split; [exact F|]. constructor; [exact Hi | constructor].
Qed.

Lemma PInv_bind {A B} (a : CM A) (k : A -> CM B) :
  PInv a -> (forall x, PInv (k x)) -> PInv (bind a k).
Proof.
  intros Ha Hk c y c' HI E. unfold bind in E.
  destruct (a c) as [[x c1]| |] eqn:Ea; try discriminate.
  exact (Hk x c1 y c' (Ha c x c1 HI Ea) E).
Qed.

Lemma PInv_ret {A} (x : A) : PInv (ret x).
Proof. intros c y c' HI E. injection E as _ <-. exact HI. Qed.

Lemma PInv_get : PInv get.
Proof. intros c y c' HI E. injection E as _ <-. exact HI. Qed.

Lemma PInv_panic {A} (m : String.string) : PInv (A := A) (panic m).
Proof. intros c y c' HI E. discriminate E. Qed.

Lemma PInv_out_of_fuel {A} : PInv (A := A) out_of_fuel.
Proof. intros c y c' HI E. discriminate E. Qed.

Lemma PInv_advance : PInv advance.
Proof.
  intros c y c' HI E. pose proof (advance_spec c) as S. rewrite E in S.
  destruct S as (_ & Hp & Hch & Hl & _ & Hn & _).
  destruct HI as (_ & _ & F & W). unfold Inv. rewrite Hch.
  repeat split; auto. intros t Ht. rewrite Hp in Ht. exact (Hl t Ht).
Qed.

Lemma PInv_error (m : String.string) (t : Scanner.Token) : PInv (error m t).
Proof.
  intros c y c' HI E. destruct (error_state m t c) as (c2 & E2 & Hs & Hc & Hp & Hch & Hl).
  rewrite E2 in E. injection E as _ <-. destruct HI as (I1 & I2 & I3 & I4).
  unfold Inv. rewrite Hs, Hc, Hp, Hch, Hl. auto.
Qed.

Lemma PInv_error_at_the_end (m : String.string) : PInv (error_at_the_end m).
Proof.
  intros c y c' HI E. destruct (error_at_the_end_state m c) as (c2 & E2 & Hs & Hc & Hp & Hch & Hl).
  rewrite E2 in E. injection E as _ <-. destruct HI as (I1 & I2 & I3 & I4).
  unfold Inv. rewrite Hs, Hc, Hp, Hch, Hl. auto.
Qed.

Lemma Inv_set_chunk (c : Compiler) (ch : Common.Chunk) :
  Inv c -> Forall not_return (Common.instructions ch) -> chunk_wf ch -> Inv (set_chunk ch c).
Proof. intros (I1 & I2 & _ & _) F W. unfold Inv; simpl. auto. Qed.

Lemma PInv_emit (i : Instruction.Instruction) (t : Scanner.Token) :
  plain i -> PInv (emit_instruction i t).
Proof.
  intros Hi c y c' HI E. unfold emit_instruction, modify in E. injection E as _ <-.
  pose proof HI as (_ & _ & F & W). apply Inv_set_chunk; [exact HI | |].
  - apply Forall_add_instruction; [exact F|]. intros ->. exact Hi.
  - apply wf_add_instruction; [exact W|]. intros k ->. exact Hi.
Qed.

Lemma PInv_emit_last (i : Instruction.Instruction) :
  plain i -> PInv (emit_instruction_for_last_token i).
Proof.
  intros Hi c y c' HI E. unfold emit_instruction_for_last_token, modify in E. injection E as _ <-.
  pose proof HI as (_ & _ & F & W). apply Inv_set_chunk; [exact HI | |].
  - apply Forall_add_instruction; [exact F|]. intros ->. exact Hi.
  - apply wf_add_instruction; [exact W|]. intros k ->. exact Hi.
Qed.

Lemma PInv_number (v : float) (t : Scanner.Token) : PInv (number v t).
Proof.
  intros c y c' HI E. unfold number, bind, get, put, emit_instruction, modify in E.
  simpl in E. injection E as _ <-.
  destruct HI as (I1 & I2 & F & W). unfold Inv; simpl.
  split; [exact I1|]. split; [exact I2|]. split.
  - exact (Forall_add_instruction (fst (Common.add_constant (chunk c) (Value.Double v)))
             (Instruction.Constant (snd (Common.add_constant (chunk c) (Value.Double v)))) (Scanner.line t) F ltac:(intros E; discriminate E)).
  - exact (wf_number (chunk c) (Value.Double v) (Scanner.line t) W).
Qed.

Ltac pinv :=
  repeat match goal with
  | |- PInv (bind _ _) => apply PInv_bind; [|intro; cbv beta]
  | |- PInv (ret _) => apply PInv_ret
  | |- PInv get => apply PInv_get
  | |- PInv (panic _) => apply PInv_panic
  | |- PInv out_of_fuel => apply PInv_out_of_fuel
  | |- PInv advance => apply PInv_advance
  | |- PInv (error _ _) => apply PInv_error
  | |- PInv (error_at_the_end _) => apply PInv_error_at_the_end
  | |- PInv (emit_instruction _ _) => apply PInv_emit; exact I
  | |- PInv (emit_instruction_for_last_token _) => apply PInv_emit_last; exact I
  | |- PInv (number _ _) => apply PInv_number
  | |- PInv (match ?x with _ => _ end) => destruct x
  end.

Lemma PInv_consume (t : TokenType.TokenType) (m : String.string) : PInv (consume t m).
Proof. unfold consume. pinv. Qed.

Lemma PInv_rules (pp : Precedence.Precedence -> CM unit) :
  (forall p, PInv (pp p)) ->
  (forall tok, PInv (prefix_rule pp tok)) /\ (forall tok, PInv (infix_rule pp tok)).
Proof.
  intros Hpp. split; intros tok;
    unfold prefix_rule, infix_rule, grouping, unary, binary, expression; pinv;
    first [apply Hpp | apply PInv_consume].
Qed.

Lemma PInv_parse_loop (pp : Precedence.Precedence -> CM unit) :
  (forall p, PInv (pp p)) -> forall g p, PInv (parse_loop pp g p).
Proof.
  intros Hpp g. induction g as [|g IH]; intros p; simpl; pinv.
  - apply (proj2 (PInv_rules pp Hpp)).
  - apply IH.
Qed.

Lemma PInv_parse_precedence (f : nat) (p : Precedence.Precedence) :
  PInv (parse_precedence f p).
Proof.
  revert p. induction f as [|f IH]; intros p; simpl; pinv.
  - apply (proj1 (PInv_rules _ IH)).
  - apply (PInv_parse_loop _ IH).
Qed.

Lemma TOT_bind {A B} (b : nat) (a : CM A) (k : A -> CM B) :
  TOT b a -> (forall x, TOT b (k x)) -> TOT b (bind a k).
Proof.
  intros Ha Hk c Hc. unfold bind. specialize (Ha c Hc).
  destruct (a c) as [[x c1]| |]; auto.
  specialize (Hk x c1 ltac:(lia)). destruct (k x c1) as [[y c2]| |]; auto. lia.
Qed.

Lemma TOT_ret {A} (b : nat) (x : A) : TOT b (ret x).
Proof. intros c Hc. unfold ret. lia. Qed.

Lemma TOT_get (b : nat) : TOT b get.
Proof. intros c Hc. unfold get. lia. Qed.

Lemma TOT_panic {A} (b : nat) (m : String.string) : TOT (A := A) b (panic m).
Proof. intros c Hc. exact Logic.I. Qed.

Lemma TOT_advance (b : nat) : TOT b advance.
Proof.
  intros c Hc. pose proof (advance_spec c) as A.
  destruct (advance c) as [[x c1]| |]; auto. destruct A as [A _]. lia.
Qed.

Lemma TOT_error (b : nat) (m : String.string) (t : Scanner.Token) : TOT b (error m t).
Proof.
  intros c Hc. destruct (error_state m t c) as (c2 & -> & Hs & Hc' & _).
  rewrite !meas_eq, Hs, Hc'. lia.
Qed.

Lemma TOT_error_at_the_end (b : nat) (m : String.string) : TOT b (error_at_the_end m).
Proof.
  intros c Hc. destruct (error_at_the_end_state m c) as (c2 & -> & Hs & Hc' & _).
  rewrite !meas_eq, Hs, Hc'. lia.
Qed.

Lemma TOT_emit (b : nat) (i : Instruction.Instruction) (t : Scanner.Token) :
  TOT b (emit_instruction i t).
Proof. intros c Hc. unfold emit_instruction, modify. rewrite !meas_eq. simpl. lia. Qed.

Lemma TOT_emit_last (b : nat) (i : Instruction.Instruction) :
  TOT b (emit_instruction_for_last_token i).
Proof. intros c Hc. unfold emit_instruction_for_last_token, modify. rewrite !meas_eq. simpl. lia. Qed.

Lemma TOT_number (b : nat) (v : float) (t : Scanner.Token) : TOT b (number v t).
Proof. intros c Hc. unfold number, bind, get, put, emit_instruction, modify. simpl. unfold meas; simpl. lia. Qed.

Ltac tot :=
  repeat match goal with
  | |- TOT _ (bind _ _) => apply TOT_bind; [|intro; cbv beta]
  | |- TOT _ (ret _) => apply TOT_ret
  | |- TOT _ get => apply TOT_get
  | |- TOT _ (panic _) => apply TOT_panic
  | |- TOT _ advance => apply TOT_advance
  | |- TOT _ (error _ _) => apply TOT_error
  | |- TOT _ (error_at_the_end _) => apply TOT_error_at_the_end
  | |- TOT _ (emit_instruction _ _) => apply TOT_emit
  | |- TOT _ (emit_instruction_for_last_token _) => apply TOT_emit_last
  | |- TOT _ (number _ _) => apply TOT_number
  | |- TOT _ (match ?x with _ => _ end) => destruct x
  end.

Lemma TOT_consume (b : nat) (t : TokenType.TokenType) (m : String.string) : TOT b (consume t m).
Proof. unfold consume. tot. Qed.

Lemma TOT_rules (b : nat) (pp : Precedence.Precedence -> CM unit) :
  (forall p, TOT b (pp p)) ->
  (forall tok, TOT b (prefix_rule pp tok)) /\ (forall tok, TOT b (infix_rule pp tok)).
Proof.
  intros Hpp. split; intros tok;
    unfold prefix_rule, infix_rule, grouping, unary, binary, expression; tot;
    first [apply Hpp | apply TOT_consume].
Qed.

Lemma TOT_parse_loop (b : nat) (pp : Precedence.Precedence -> CM unit) :
  (forall p, TOT b (pp p)) -> forall g, g <= b -> forall p, TOT g (parse_loop pp g p).
Proof.
  intros Hpp g. induction g as [|g IH]; intros Hg p c Hc; [lia|].
  cbn [parse_loop]. unfold bind at 1, get at 1.
  destruct (current c) as [tok|] eqn:Ec; [|unfold ret; lia].
  destruct (Precedence.ltb _ _); [unfold ret; lia|].
  unfold bind at 1. pose proof (advance_spec c) as A.
  destruct (advance c) as [[[] c1]| |]; auto.
  destruct A as [Am _]. rewrite Ec in Am.
  unfold bind at 1, get at 1. destruct (previous c1) as [pr|]; [|exact Logic.I].
  unfold bind. pose proof (proj2 (TOT_rules b pp Hpp) pr c1 ltac:(lia)) as R.
  destruct (infix_rule pp pr c1) as [[[] c2]| |]; auto.
  specialize (IH ltac:(lia) p c2 ltac:(lia)).
  destruct (parse_loop pp g p c2) as [[[] c3]| |]; auto. lia.
Qed.

Lemma TOT_parse_precedence (f : nat) (p : Precedence.Precedence) :
  TOT f (parse_precedence f p).
Proof.
  revert p. induction f as [|f IH]; intros p c Hc; [lia|].
  cbn [parse_precedence]. unfold bind at 1. pose proof (advance_spec c) as A.
  destruct (advance c) as [[[] c1]| |]; auto.
  destruct A as (Am & Ap & _).
  unfold bind at 1, get at 1. destruct (previous c1) as [tok|] eqn:Ep; [|unfold ret; lia].
  rewrite <- Ap in Am.
  unfold bind. pose proof (proj1 (TOT_rules f _ IH) tok c1 ltac:(lia)) as R.
  destruct (prefix_rule (parse_precedence f) tok c1) as [[[] c2]| |]; auto.
  pose proof (TOT_parse_loop f _ IH f (le_n f) p c2 ltac:(lia)) as L.
  destruct (parse_loop (parse_precedence f) f p c2) as [[[] c3]| |]; auto. lia.
Qed.


Lemma parse_loop_exit (pp : Precedence.Precedence -> CM unit) (g : nat)
    (p : Precedence.Precedence) (c c' : Compiler) :
  parse_loop pp g p c = Done (tt, c') -> exits p c'.
Proof.
  revert c. induction g as [|g IH]; intros c E; [discriminate E|].
  cbn [parse_loop] in E. unfold bind at 1, get at 1 in E.
  destruct (current c) as [tok|] eqn:Ec.
  - destruct (Precedence.ltb _ _) eqn:El.
    + injection E as <-. right. exists tok. auto.
    + unfold bind at 1 in E. destruct (advance c) as [[[] c1]| |]; try discriminate.
      unfold bind at 1, get at 1 in E. destruct (previous c1) as [pr|]; [|discriminate].
      unfold bind in E. destruct (infix_rule pp pr c1) as [[[] c2]| |]; try discriminate.
      exact (IH c2 E).
  - injection E as <-. left. exact Ec.
Qed.

Lemma parse_precedence_exit (f : nat) (p : Precedence.Precedence) (c c' : Compiler) :
  Inv c -> parse_precedence f p c = Done (tt, c') -> exits p c'.
Proof.
  intros HI E. destruct f as [|f]; [discriminate E|].
  cbn [parse_precedence] in E. unfold bind at 1 in E. pose proof (advance_spec c) as A.
  destruct (advance c) as [[[] c1]| |]; try discriminate.
  destruct A as (_ & Ap & _ & _ & _ & _ & Ar).
  unfold bind at 1, get at 1 in E. destruct (previous c1) as [tok|] eqn:Ep.
  - unfold bind in E. destruct (prefix_rule (parse_precedence f) tok c1) as [[[] c2]| |];
      try discriminate.
    exact (parse_loop_exit _ _ _ _ _ E).
  - injection E as <-. left. apply Ar. apply (proj1 HI). congruence.
Qed.

Lemma new_spec (cs : list ascii) :
  match new (Scanner.new cs) Common.Chunk_new with
  | Done c0 => Inv c0 /\ meas c0 <= List.length cs
  | Panicked _ => Logic.True
  | OutOfFuel => Logic.False
  end.
Proof.
  unfold new. pose proof (ScannerTotal.next_spec (Scanner.new cs)) as N.
  destruct (Scanner.next (Scanner.new cs)) as [[[t|] s']| |]; auto.
  - split.
    + unfold Inv; simpl. split; [intros E; discriminate E|]. split; [intros t' E; discriminate E|].
      split; [constructor|]. intros k i l E. destruct k; discriminate E.
    + rewrite meas_eq. simpl. change (rem_len (Scanner.new cs)) with (List.length cs) in N. lia.
  - split.
    + unfold Inv; simpl. split; [intros _; exact N|]. split; [intros t' E; discriminate E|].
      split; [constructor|]. intros k i l E. destruct k; discriminate E.
    + rewrite meas_eq. simpl. unfold rem_len. rewrite N. simpl. lia.
Qed.

(** What [compile_to_chunk] runs: the parse of one expression, then the
    trailing [Return]. *)
Lemma session_spec (source : String.string) :
  match compile_session source with
  | Done c => exists c1, Inv c1 /\ exits Precedence.Assignment c1
                /\ c = set_chunk (Common.add_instruction (chunk c1) Instruction.Return
                                                         (last_token_line c1)) c1
  | Panicked _ => Logic.True
  | OutOfFuel => Logic.False
  end.
Proof.
  unfold compile_session.
  pose proof (new_spec (list_ascii_of_string source)) as N.
  destruct (new _ _) as [c0| |]; auto. destruct N as [HI Hm].
  unfold bind, expression.
  set (f := S (List.length (list_ascii_of_string source))).
  pose proof (TOT_parse_precedence f Precedence.Assignment c0 ltac:(unfold f; lia)) as T.
  pose proof (PInv_parse_precedence f Precedence.Assignment c0) as P.
  pose proof (parse_precedence_exit f Precedence.Assignment c0) as X.
  destruct (parse_precedence f Precedence.Assignment c0) as [[[] c1]| |]; auto.
  exists c1. split; [exact (P tt c1 HI eq_refl)|]. split; [exact (X c1 HI eq_refl)|].
  reflexivity.
Qed.

Lemma session_total (source : String.string) : compile_session source <> OutOfFuel.
Proof.
  pose proof (session_spec source) as S. intros E. rewrite E in S. exact S.
Qed.

End CompilerFacts.

Module VmTotal.

Import Common Instruction Vm Measures.

Lemma stack_pop_ip (vm vm' : VM) (o : option Value.Value) :
  stack_pop vm = (o, vm') -> ip vm' = ip vm.
Proof.
  unfold stack_pop. destruct (rev (stack vm)); intros E; injection E as _ <-; reflexivity.
Qed.

Lemma binary_stack_op_ip (op : Value.Value -> Value.Value -> Value.Value) (vm vm' : VM) :
  binary_stack_op op vm = Some vm' -> ip vm' = ip vm.
Proof.
  unfold binary_stack_op. destruct (stack_pop vm) as [[r|] vm1] eqn:E1; [|discriminate].
  destruct (stack_pop vm1) as [[l|] vm2] eqn:E2; [|discriminate].
  intros E. injection E as <-. simpl.
  rewrite (stack_pop_ip _ _ _ E2). exact (stack_pop_ip _ _ _ E1).
Qed.

(** A chunk made of instructions other than [Return], closed by one
    [Return], whose constant indices are in bounds, runs to an outcome. *)
Lemma run_total (body : list InstructionWithLine) (l : nat) (consts : list Value.Value) :
  Forall not_return body ->
  chunk_wf (mkChunk (body ++ [IWL Return l]) consts) ->
  forall n vm fuel, List.length body - ip vm = n -> ip vm <= List.length body -> n < fuel ->
  exists r, run fuel (mkChunk (body ++ [IWL Return l]) consts) vm = Done r.
Proof.
  intros F W n. induction n as [|n IH]; intros vm fuel En Hle Hf;
    (destruct fuel as [|fuel]; [lia|]); simpl; unfold read_instruction; simpl.
  - replace (ip vm) with (List.length body) by lia.
    rewrite nth_error_app2 by lia. rewrite Nat.sub_diag. simpl. eexists; reflexivity.
  - assert (Hlt : ip vm < List.length body) by lia.
    rewrite nth_error_app1 by exact Hlt.
    destruct (nth_error body (ip vm)) as [[i line]|] eqn:Ei;
      [|apply nth_error_None in Ei; lia].
    assert (Hi : i <> Return)
      by (apply nth_error_In in Ei; rewrite Forall_forall in F; exact (F _ Ei)).
    assert (IH' : forall vm', ip vm' = S (ip vm) ->
                  exists r, run fuel (mkChunk (body ++ [IWL Return l]) consts) vm' = Done r)
      by (intros vm' E'; apply IH; lia).
    destruct i; [exfalso; exact (Hi eq_refl) | | | | | |].
    + assert (Hk : i < List.length consts).
      { apply (W (ip vm) i line). simpl. rewrite nth_error_app1 by exact Hlt. exact Ei. }
      unfold read_constant. simpl.
      destruct (nth_error consts i) eqn:Ec; [|apply nth_error_None in Ec; lia].
      apply IH'. reflexivity.
    + destruct (stack_pop _) as [[v|] vm'] eqn:Ep; [|eexists; reflexivity].
      apply IH'. simpl. apply stack_pop_ip in Ep. exact Ep.
    + destruct (binary_stack_op _ _) as [vm'|] eqn:Eb; [|eexists; reflexivity].
      apply IH'. apply binary_stack_op_ip in Eb. exact Eb.
    + destruct (binary_stack_op _ _) as [vm'|] eqn:Eb; [|eexists; reflexivity].
      apply IH'. apply binary_stack_op_ip in Eb. exact Eb.
    + destruct (binary_stack_op _ _) as [vm'|] eqn:Eb; [|eexists; reflexivity].
      apply IH'. apply binary_stack_op_ip in Eb. exact Eb.
    + destruct (binary_stack_op _ _) as [vm'|] eqn:Eb; [|eexists; reflexivity].
      apply IH'. apply binary_stack_op_ip in Eb. exact Eb.
Qed.

End VmTotal.

Import Common Instruction.

(** C10: a unary minus is compiled by consuming the operator, compiling its
    operand as a full expression and then emitting [Negate] tagged with the
    operator's own line; so [-1 + 2] negates the whole sum [1 + 2]. *)
Theorem c10_unary_minus_operand :
  (forall (f : nat) (c : Compiler.Compiler) (tok : Scanner.Token),
     Measures.Inv c -> Compiler.current c = Some tok ->
     Scanner.t_type tok = TokenType.Minus ->
     Compiler.expression (Compiler.parse_precedence (S f)) c
     = (Compiler.advance ;;
        Compiler.expression (Compiler.parse_precedence f) ;;
        Compiler.emit_instruction Negate tok) c)
  /\ Compiler.compile_to_chunk "-1 + 2"
     = Done (mkChunk [IWL (Constant 0) 1; IWL (Constant 1) 1; IWL Add 1;
                      IWL Negate 1; IWL Return 1]
                     [Value.Double 1; Value.Double 2]).
Proof.
  split; [|vm_compute; reflexivity].
  intros f c tok HI Hc Ht. unfold Compiler.expression. cbn [Compiler.parse_precedence].
  pose proof (CompilerFacts.advance_spec c) as A.
  pose proof (CompilerFacts.PInv_advance c) as PA.
  unfold bind at 1 4. destruct (Compiler.advance c) as [[[] c1]| |]; [|reflexivity|reflexivity].
  specialize (PA tt c1 HI eq_refl). destruct A as (_ & Ap & _).
  rewrite Hc in Ap. unfold bind at 1, get at 1. rewrite Ap.
  unfold Compiler.prefix_rule. rewrite Ht. unfold Compiler.unary, Compiler.expression.
  rewrite Ht. unfold bind.
  destruct (Compiler.parse_precedence f Precedence.Assignment c1) as [[[] c2]| |] eqn:E2;
    [|reflexivity|reflexivity].
  destruct f as [|f]; [discriminate E2|].
  pose proof (CompilerFacts.parse_precedence_exit _ _ _ _ PA E2) as X.
  unfold Compiler.emit_instruction, modify. cbn [Compiler.parse_loop].
  unfold bind, get. simpl.
  destruct X as [X | (t & X & Xl)]; rewrite X; [reflexivity|]. rewrite Xl. reflexivity.
Qed.

(** Instance of C10 on the compiler state reached at the start of [-1]. *)
Lemma c10_unary_minus_operand_witness :
  Measures.Inv (Compiler.mkCompiler (Scanner.mkScanner ["-"; "1"]%char ["1"]%char None 1 1)
                  (Some (Scanner.mkToken TokenType.Minus 1)) None [] false Chunk_new 0)
  /\ Compiler.expression (Compiler.parse_precedence 3)
       (Compiler.mkCompiler (Scanner.mkScanner ["-"; "1"]%char ["1"]%char None 1 1)
          (Some (Scanner.mkToken TokenType.Minus 1)) None [] false Chunk_new 0)
     = (Compiler.advance ;;
        Compiler.expression (Compiler.parse_precedence 2) ;;
        Compiler.emit_instruction Negate (Scanner.mkToken TokenType.Minus 1))
       (Compiler.mkCompiler (Scanner.mkScanner ["-"; "1"]%char ["1"]%char None 1 1)
          (Some (Scanner.mkToken TokenType.Minus 1)) None [] false Chunk_new 0).
Proof.
  assert (HI : Measures.Inv (Compiler.mkCompiler (Scanner.mkScanner ["-"; "1"]%char ["1"]%char None 1 1)
                  (Some (Scanner.mkToken TokenType.Minus 1)) None [] false Chunk_new 0)).
  { unfold Measures.Inv; simpl. split; [intros E; discriminate E|].
    split; [intros t E; discriminate E|]. split; [constructor|].
    intros k i l E. destruct k; discriminate E. }
  split; [exact HI|].
  apply (proj1 c10_unary_minus_operand 2 _ _ HI); reflexivity.
Defined.

(** C6: every completed compilation ends its chunk with exactly one [Return],
    tagged with the line of the last consumed token (the previous token's
    line, kept unchanged once the input is exhausted), also when errors were
    recorded; compilation never runs out of fuel. *)
Theorem c6_single_trailing_return :
  (forall (source : String.string) (c : Compiler.Compiler),
     Compiler.compile_session source = Done c ->
     exists body,
       instructions (Compiler.chunk c) = body ++ [IWL Return (Compiler.last_token_line c)]
       /\ Forall Measures.not_return body
       /\ (forall t, Compiler.previous c = Some t ->
                     Compiler.last_token_line c = Scanner.line t))
  /\ (forall (c c' : Compiler.Compiler) (t : Scanner.Token),
        Compiler.current c = Some t -> Compiler.advance c = Done (tt, c') ->
        Compiler.previous c' = Some t /\ Compiler.last_token_line c' = Scanner.line t)
  /\ (forall (c c' : Compiler.Compiler),
        Compiler.current c = None -> Compiler.advance c = Done (tt, c') ->
        Compiler.last_token_line c' = Compiler.last_token_line c)
  /\ (forall source, Compiler.compile_session source <> OutOfFuel)
  /\ Compiler.compile_to_chunk "1 +
2" = Done (mkChunk [IWL (Constant 0) 1; IWL (Constant 1) 2; IWL Add 2; IWL Return 2]
                   [Value.Double 1; Value.Double 2])
  /\ match Compiler.compile_session ")" with
     | Done c => Compiler.errors c <> [] /\ instructions (Compiler.chunk c) = [IWL Return 1]
     | _ => Logic.False
     end.
Proof.
  split; [|split; [|split; [|split; [|split]]]].
  - intros source c E. pose proof (CompilerFacts.session_spec source) as S.
    rewrite E in S. destruct S as (c1 & HI & _ & ->). destruct HI as (_ & I2 & F & _).
    exists (instructions (Compiler.chunk c1)). simpl. split; [reflexivity|]. split; assumption.
  - intros c c' t Hc E. pose proof (CompilerFacts.advance_spec c) as A. rewrite E in A.
    destruct A as (_ & Ap & _ & Hl & _). rewrite Hc in Ap. split; [exact Ap | exact (Hl t Hc)].
  - intros c c' Hc E. pose proof (CompilerFacts.advance_spec c) as A. rewrite E in A.
    destruct A as (_ & _ & _ & _ & Hl & _). exact (Hl Hc).
  - exact CompilerFacts.session_total.
  - vm_compute. reflexivity.
  - vm_compute. split; [intros E; discriminate E | reflexivity].
Qed.

(** Instance of C6 on the erroneous source [)]. *)
Lemma c6_single_trailing_return_witness :
  match Compiler.compile_session ")" with
  | Done c =>
      exists body,
        instructions (Compiler.chunk c) = body ++ [IWL Return (Compiler.last_token_line c)]
        /\ Forall Measures.not_return body
        /\ (forall t, Compiler.previous c = Some t ->
                      Compiler.last_token_line c = Scanner.line t)
  | _ => Logic.False
  end.
Proof.
  generalize (proj1 c6_single_trailing_return ")").
  destruct (Compiler.compile_session ")") as [c|m|] eqn:E.
  - intros H. exact (H c eq_refl).
  - vm_compute in E. discriminate E.
  - vm_compute in E. discriminate E.
Defined.

(** C7: a number literal appends one constant and a [Constant] instruction
    holding that constant's index and the literal's line; every [Constant]
    index of a compiled chunk is in bounds, and running a compiled chunk on a
    fresh VM always finishes. *)
Theorem c7_constant_indices_in_bounds :
  (forall (v : float) (t : Scanner.Token) (c : Compiler.Compiler),
     exists c', Compiler.number v t c = Done (tt, c')
       /\ constants (Compiler.chunk c') = constants (Compiler.chunk c) ++ [Value.Double v]
       /\ instructions (Compiler.chunk c')
          = instructions (Compiler.chunk c)
            ++ [IWL (Constant (List.length (constants (Compiler.chunk c)))) (Scanner.line t)])
  /\ (forall (f : nat) (p : Precedence.Precedence) (c c' : Compiler.Compiler),
        Measures.Inv c -> Compiler.parse_precedence f p c = Done (tt, c') ->
        Measures.chunk_wf (Compiler.chunk c'))
  /\ (forall (source : String.string) (ch : Chunk),
        Compiler.compile_to_chunk source = Done ch ->
        Measures.chunk_wf ch /\ exists r, Vm.interpret Vm.new ch = Done r).
Proof.
  split; [|split].
  - intros v t c.
    unfold Compiler.number, bind, get, put, Compiler.emit_instruction, modify. simpl.
    eexists. split; [reflexivity|]. simpl. split; [reflexivity|].
    rewrite length_app. simpl. rewrite Nat.add_sub. reflexivity.
  - intros f p c c' HI E.
    exact (proj2 (proj2 (proj2 (CompilerFacts.PInv_parse_precedence f p c tt c' HI E)))).
  - intros source ch E. unfold Compiler.compile_to_chunk in E.
    pose proof (CompilerFacts.session_spec source) as S.
    destruct (Compiler.compile_session source) as [c| |]; try discriminate E.
    injection E as <-. destruct S as (c1 & HI & _ & ->). destruct HI as (_ & _ & F & W).
    simpl. unfold add_instruction.
    assert (W' : Measures.chunk_wf
                   (mkChunk (instructions (Compiler.chunk c1)
                             ++ [IWL Return (Compiler.last_token_line c1)])
                            (constants (Compiler.chunk c1))))
      by (apply (CompilerFacts.wf_add_instruction _ Return); [exact W | intros k E; discriminate E]).
    split; [exact W'|].
    unfold Vm.interpret.
    apply (VmTotal.run_total _ _ _ F W' (List.length (instructions (Compiler.chunk c1)) - 0)).
    all: cbn [Vm.ip Vm.new instructions]; rewrite ?length_app; cbn [List.length]; lia.
Qed.

(** Instance of C7 on [1 + 2 * 3]. *)
Lemma c7_constant_indices_in_bounds_witness :
  match Compiler.compile_to_chunk "1 + 2 * 3" with
  | Done ch => Measures.chunk_wf ch /\ exists r, Vm.interpret Vm.new ch = Done r
  | _ => Logic.False
  end.
Proof.
  generalize (proj2 (proj2 c7_constant_indices_in_bounds) "1 + 2 * 3").
  destruct (Compiler.compile_to_chunk "1 + 2 * 3") as [ch|m|] eqn:E.
  - intros H. exact (H ch eq_refl).
  - vm_compute in E. discriminate E.
  - vm_compute in E. discriminate E.
Defined.

(** C2 (counterexample): [compile] does not return a chunk with its errors:
    it panics on [1 == 2], and the errors of [(1] are dropped, its chunk being
    the one of [1]. *)
Lemma c2_compile_panics_and_drops_errors :
  Compiler.compile "1 == 2" = Panicked "Can't invoke infix rule on this token type"
  /\ ~ (forall source, exists out, Compiler.compile source = Done out)
  /\ Compiler.compile_to_chunk "(1" = Compiler.compile_to_chunk "1"
  /\ match Compiler.compile_session "(1", Compiler.compile_session "1" with
     | Done c, Done c' => Compiler.errors c <> [] /\ Compiler.errors c' = []
     | _, _ => Logic.False
     end.
Proof.
  split; [vm_compute; reflexivity|]. split.
  - intros H. destruct (H "1 == 2") as [out E]. vm_compute in E. discriminate E.
  - split; [vm_compute; reflexivity|].
    vm_compute. split; [intros E; discriminate E | reflexivity].
Qed.

(** C2 (amended): [compile_to_chunk] returns the chunk alone, ending in a
    [Return], whether or not errors were recorded, and the errors are dropped;
    [compile] only yields the disassembly; compilation panics when a token
    with a precedence but no infix rule reaches the infix dispatch. *)
Theorem c2_compile_returns_chunk_only :
  (forall (source : String.string) (c : Compiler.Compiler),
     Compiler.compile_session source = Done c ->
     Compiler.compile_to_chunk source = Done (Compiler.chunk c)
     /\ Compiler.compile source = Done (disassemble (Compiler.chunk c))
     /\ exists body, instructions (Compiler.chunk c)
                     = body ++ [IWL Return (Compiler.last_token_line c)])
  /\ (forall source,
        (exists c, Compiler.compile_session source = Done c)
        \/ (exists m, Compiler.compile_session source = Panicked m
                      /\ Compiler.compile_to_chunk source = Panicked m
                      /\ Compiler.compile source = Panicked m))
  /\ (forall (pp : Precedence.Precedence -> Compiler.CM unit) (tok : Scanner.Token)
             (c : Compiler.Compiler),
        match Scanner.t_type tok with
        | TokenType.Minus | TokenType.Plus | TokenType.Star | TokenType.Slash => Logic.False
        | _ => Logic.True
        end ->
        Compiler.infix_rule pp tok c = Panicked "Can't invoke infix rule on this token type")
  /\ Compiler.compile_to_chunk "(1" = Compiler.compile_to_chunk "1".
Proof.
  split; [|split; [|split]].
  - intros source c E. unfold Compiler.compile, Compiler.compile_to_chunk. rewrite E.
    split; [reflexivity|]. split; [reflexivity|].
    pose proof (CompilerFacts.session_spec source) as S. rewrite E in S.
    destruct S as (c1 & _ & _ & ->). exists (instructions (Compiler.chunk c1)). reflexivity.
  - intros source. pose proof (CompilerFacts.session_total source) as T.
    unfold Compiler.compile, Compiler.compile_to_chunk.
    destruct (Compiler.compile_session source) as [c|m|].
    + left. exists c. reflexivity.
    + right. exists m. auto.
    + exfalso. exact (T eq_refl).
  - intros pp tok c H. unfold Compiler.infix_rule.
    destruct (Scanner.t_type tok); first [contradiction H | reflexivity].
  - vm_compute. reflexivity.
Qed.

(** Instance of C2 (amended) on [(1] and on an [==] token. *)
Lemma c2_compile_returns_chunk_only_witness :
  match Compiler.compile_session "(1" with
  | Done c =>
      Compiler.errors c <> []
      /\ Compiler.compile_to_chunk "(1" = Done (Compiler.chunk c)
      /\ Compiler.compile "(1" = Done (disassemble (Compiler.chunk c))
  | _ => Logic.False
  end
  /\ Compiler.infix_rule (Compiler.parse_precedence 1) (Scanner.mkToken TokenType.EqualEqual 1)
       (Compiler.mkCompiler (Scanner.new []) None None [] false Chunk_new 0)
     = Panicked "Can't invoke infix rule on this token type".
Proof.
  split.
  - generalize (proj1 c2_compile_returns_chunk_only "(1").
    destruct (Compiler.compile_session "(1") as [c|m|] eqn:E.
    + intros H. destruct (H c eq_refl) as (H1 & H2 & _).
      split; [|split; assumption].
      vm_compute in E. injection E as <-. vm_compute. intros E; discriminate E.
    + vm_compute in E. discriminate E.
    + vm_compute in E. discriminate E.
  - apply (proj1 (proj2 (proj2 c2_compile_returns_chunk_only))). exact Logic.I.
Defined.

(** C3 (counterexample): [interpret_source] does not return [Ok] for every
    source text: it panics on [1 == 2]. *)
Lemma c3_interpret_source_panics :
  Vm.interpret_source "1 == 2" = Panicked "Can't invoke infix rule on this token type".
Proof. vm_compute. reflexivity. Qed.

(** C3 (amended): [interpret_source] compiles the source and returns [Ok]
    with the disassembly whenever compilation completes, without running the
    chunk; otherwise the compiler's panic propagates. It never returns
    [CompileError] or [RuntimeError], even for [-], whose chunk fails at run
    time on a fresh VM. *)
Theorem c3_interpret_source_ok_or_panic :
  (forall source : String.string,
     (exists ch, Compiler.compile_to_chunk source = Done ch
                 /\ Vm.interpret_source source = Done (Vm.Ok, disassemble ch))
     \/ (exists m, Compiler.compile_to_chunk source = Panicked m
                   /\ Vm.interpret_source source = Panicked m))
  /\ (forall (source : String.string) (r : Vm.InterpretResult) out,
        Vm.interpret_source source = Done (r, out) -> r = Vm.Ok)
  /\ Vm.interpret_source "-" = Done (Vm.Ok, [(0, IWL Negate 1); (1, IWL Return 1)])
  /\ Compiler.compile_to_chunk "-" = Done (mkChunk [IWL Negate 1; IWL Return 1] [])
  /\ Vm.interpret Vm.new (mkChunk [IWL Negate 1; IWL Return 1] []) = Done (Vm.RuntimeError, []).
Proof.
  split; [|split; [|split; [|split]]].
  - intros source. pose proof (CompilerFacts.session_total source) as T.
    unfold Vm.interpret_source, Compiler.compile, Compiler.compile_to_chunk.
    destruct (Compiler.compile_session source) as [c|m|].
    + left. exists (Compiler.chunk c). auto.
    + right. exists m. auto.
    + exfalso. exact (T eq_refl).
  - intros source r out. unfold Vm.interpret_source.
    destruct (Compiler.compile source); intros E; try discriminate E.
    injection E as <- _. reflexivity.
  - vm_compute. reflexivity.
  - vm_compute. reflexivity.
  - vm_compute. reflexivity.
Qed.

(** Instance of C3 (amended) on [1 + 2]. *)
Lemma c3_interpret_source_ok_or_panic_witness :
  match Vm.interpret_source "1 + 2" with
  | Done (r, _) => r = Vm.Ok
  | _ => Logic.False
  end.
Proof.
  generalize (proj1 (proj2 c3_interpret_source_ok_or_panic) "1 + 2").
  destruct (Vm.interpret_source "1 + 2") as [[r out]|m|] eqn:E.
  - intros H. exact (H r out eq_refl).
  - vm_compute in E. discriminate E.
  - vm_compute in E. discriminate E.
Defined.

(** * Further properties of the code *)

Module ExtraFacts.

Lemma combine_seq_nth {A} (l : list A) (s k : nat) :
  nth_error (combine (seq s (List.length l)) l) k = option_map (fun i => (s + k, i)) (nth_error l k).
Proof.
  revert s k. induction l as [|x l IH]; intros s k; [destruct k; reflexivity|].
  destruct k as [|k]; simpl; [rewrite Nat.add_0_r; reflexivity|].
  rewrite IH. destruct (nth_error l k); simpl; [rewrite Nat.add_succ_r; reflexivity | reflexivity].
Qed.

Lemma combine_seq_length {A} (l : list A) (s : nat) :
  List.length (combine (seq s (List.length l)) l) = List.length l.
Proof. rewrite length_combine, length_seq. lia. Qed.

Lemma combine_app {A B} (l1 l2 : list A) (l3 l4 : list B) :
  List.length l1 = List.length l3 -> combine (l1 ++ l2) (l3 ++ l4) = combine l1 l3 ++ combine l2 l4.
Proof.
  revert l3. induction l1 as [|x l1 IH]; intros [|y l3] H; simpl in *; try discriminate H;
    [reflexivity|]. rewrite IH by lia. reflexivity.
Qed.

Lemma run_outcome (fuel : nat) (ch : Chunk) (vm : Vm.VM) r out :
  Vm.run fuel ch vm = Done (r, out) ->
  (r = Vm.Ok /\ exists v, out = [v]) \/ (r = Vm.RuntimeError /\ out = []).
Proof.
  revert vm. induction fuel as [|f IH]; intros vm E; [discriminate E|].
  simpl in E. destruct (Vm.read_instruction vm ch) as [[ins vm1]| |]; try discriminate E.
  destruct ins; unfold Vm.binary_stack_op in E.
  4-7: destruct (Vm.stack_pop vm1) as [[v|] vm2];
       [destruct (Vm.stack_pop vm2) as [[w|] vm3]; [exact (IH _ E)|] |];
       injection E as <- <-; right; split; reflexivity.
  - injection E as <- <-. left. split; [reflexivity | eexists; reflexivity].
  - destruct (read_constant ch i); try discriminate E. exact (IH _ E).
  - destruct (Vm.stack_pop vm1) as [[v|] vm2]; [exact (IH _ E)|].
    injection E as <- <-. right. split; reflexivity.
Qed.

End ExtraFacts.



(** [run_file]: an unreadable file prints the error and exits with 2; a
    readable one prints the disassembly and exits with 0 when compilation
    completes, and the compiler's panic propagates otherwise; the exit
    status 1 meant for runtime errors is never used. *)
Theorem run_file_exit_status (fs : Util.FileSystem) (file_name : String.string) :
  (forall err, fs file_name = Util.Err err ->
     Util.run_file fs file_name
     = Done ([Util.Line ("Unable to read script file: " ++ err)], 2))
  /\ (forall source, fs file_name = Util.Ok source ->
        (exists ch, Compiler.compile_to_chunk source = Done ch
                    /\ Util.run_file fs file_name = Done ([Util.Listing (disassemble ch)], 0))
        \/ (exists m, Compiler.compile_to_chunk source = Panicked m
                      /\ Util.run_file fs file_name = Panicked m))
  /\ (forall out code, Util.run_file fs file_name = Done (out, code) -> code <> 1).
Proof.
  unfold Util.run_file, Util.read_file_to_string. split; [|split].
  - intros err ->. reflexivity.
  - intros source ->. pose proof (CompilerFacts.session_total source) as T.
    unfold Vm.interpret_source, Compiler.compile, Compiler.compile_to_chunk.
    destruct (Compiler.compile_session source) as [c|m|].
    + left. exists (Compiler.chunk c). split; reflexivity.
    + right. exists m. split; reflexivity.
    + exfalso. exact (T eq_refl).
  - intros out code. destruct (fs file_name) as [source|err].
    + unfold Vm.interpret_source.
      destruct (Compiler.compile source); intros E; try discriminate E.
      injection E as _ <-. discriminate.
    + intros E. injection E as _ <-. discriminate.
Qed.

(** [run_file] on a missing file and on the source [-]. *)
Lemma run_file_exit_status_witness :
  Util.run_file (fun _ => Util.Err "No such file or directory (os error 2)") "x.lox"
  = Done ([Util.Line "Unable to read script file: No such file or directory (os error 2)"], 2)
  /\ ((exists ch, Compiler.compile_to_chunk "-" = Done ch
                  /\ Util.run_file (fun _ => Util.Ok "-") "x.lox" = Done ([Util.Listing (disassemble ch)], 0))
      \/ (exists m, Compiler.compile_to_chunk "-" = Panicked m
                    /\ Util.run_file (fun _ => Util.Ok "-") "x.lox" = Panicked m)).
Proof.
  split.
  - apply (proj1 (run_file_exit_status (fun _ => Util.Err "No such file or directory (os error 2)") "x.lox")).
    reflexivity.
  - apply (proj1 (proj2 (run_file_exit_status (fun _ => Util.Ok "-") "x.lox"))). reflexivity.
Defined.

(** [add_constant] returns the index of the new constant, which
    [read_constant] then yields; the older constants and the instructions
    are unchanged, and reading at the old length panics. *)
Theorem add_constant_read_constant (ch : Chunk) (v : Value.Value) :
  snd (add_constant ch v) = List.length (constants ch)
  /\ read_constant (fst (add_constant ch v)) (snd (add_constant ch v)) = Done v
  /\ (forall j, j < List.length (constants ch) ->
        read_constant (fst (add_constant ch v)) j = read_constant ch j)
  /\ read_constant ch (List.length (constants ch)) = Panicked "index out of bounds"
  /\ instructions (fst (add_constant ch v)) = instructions ch.
Proof.
  unfold add_constant, read_constant; simpl. rewrite length_app; simpl.
  rewrite Nat.add_sub. split; [reflexivity|]. split.
  - rewrite nth_error_app2, Nat.sub_diag by lia. reflexivity.
  - split; [|split; [|reflexivity]].
    + intros j Hj. rewrite nth_error_app1 by exact Hj. reflexivity.
    + rewrite (proj2 (nth_error_None _ _)) by lia. reflexivity.
Qed.

(** Reading an older constant after [add_constant]. *)
Lemma add_constant_read_constant_witness :
  read_constant (fst (add_constant (mkChunk [] [Value.Double 1]) (Value.Double 2))) 0
  = read_constant (mkChunk [] [Value.Double 1]) 0.
Proof.
  apply (proj1 (proj2 (proj2 (add_constant_read_constant (mkChunk [] [Value.Double 1]) (Value.Double 2))))).
  simpl. lia.
Defined.

(** [disassemble] lists every instruction once, numbered by its index;
    [add_instruction] adds one numbered line at the end. *)
Theorem disassemble_numbering (ch : Chunk) :
  List.length (disassemble ch) = List.length (instructions ch)
  /\ (forall k, nth_error (disassemble ch) k
                = option_map (fun i => (k, i)) (nth_error (instructions ch) k))
  /\ (forall oc line,
        disassemble (add_instruction ch oc line)
        = disassemble ch ++ [(List.length (instructions ch), IWL oc line)]).
Proof.
  unfold disassemble. split; [apply ExtraFacts.combine_seq_length|]. split.
  - intros k. apply ExtraFacts.combine_seq_nth.
  - intros oc line. unfold add_instruction; simpl.
    rewrite length_app, seq_app. simpl.
    rewrite ExtraFacts.combine_app by (rewrite length_seq; reflexivity). reflexivity.
Qed.







(** [interpret] never returns [CompileError]: [Ok] comes with exactly one
    printed value and [RuntimeError] with none; a compiled chunk run on a
    fresh VM always ends in one of these two. *)
Theorem interpret_outcomes :
  (forall (vm : Vm.VM) (ch : Chunk) r out,
     Vm.interpret vm ch = Done (r, out) ->
     (r = Vm.Ok /\ exists v, out = [v]) \/ (r = Vm.RuntimeError /\ out = []))
  /\ (forall (source : String.string) (ch : Chunk),
        Compiler.compile_to_chunk source = Done ch ->
        (exists v, Vm.interpret Vm.new ch = Done (Vm.Ok, [v]))
        \/ Vm.interpret Vm.new ch = Done (Vm.RuntimeError, [])).
Proof.
  split.
  - intros vm ch r out. apply ExtraFacts.run_outcome.
  - intros source ch E. unfold Compiler.compile_to_chunk in E.
    pose proof (CompilerFacts.session_spec source) as S.
    destruct (Compiler.compile_session source) as [c| |]; try discriminate E.
    injection E as <-. destruct S as (c1 & HI & _ & ->). destruct HI as (_ & _ & F & W).
    assert (W' : Measures.chunk_wf
                   (mkChunk (instructions (Compiler.chunk c1)
                             ++ [IWL Return (Compiler.last_token_line c1)])
                            (constants (Compiler.chunk c1))))
      by (apply (CompilerFacts.wf_add_instruction _ Return); [exact W | intros k E; discriminate E]).
    simpl. unfold add_instruction, Vm.interpret.
    destruct (VmTotal.run_total _ _ _ F W' (List.length (instructions (Compiler.chunk c1)) - 0)
                Vm.new
                (S (List.length (instructions (Compiler.chunk c1) ++ [IWL Return (Compiler.last_token_line c1)]) - Vm.ip Vm.new)))
      as [[r out] R];
      [cbn [Vm.ip Vm.new]; lia | cbn [Vm.ip Vm.new]; lia
      | cbn [Vm.ip Vm.new instructions]; rewrite length_app; cbn [List.length]; lia |].
    cbn [instructions]. rewrite R.
    destruct (ExtraFacts.run_outcome _ _ _ _ _ R) as [[-> [v ->]] | [-> ->]].
    + left. exists v. reflexivity.
    + right. reflexivity.
Qed.

(** [Negate] on an empty stack, and the chunk of [1]. *)
Lemma interpret_outcomes_witness :
  Vm.interpret Vm.new (mkChunk [IWL Negate 1; IWL Return 1] []) = Done (Vm.RuntimeError, [])
  /\ ((exists v, Vm.interpret Vm.new (mkChunk [IWL (Constant 0) 1; IWL Return 1] [Value.Double 1])
                 = Done (Vm.Ok, [v]))
      \/ Vm.interpret Vm.new (mkChunk [IWL (Constant 0) 1; IWL Return 1] [Value.Double 1])
         = Done (Vm.RuntimeError, [])).
Proof.
  split; [vm_compute; reflexivity|].
  apply (proj2 interpret_outcomes "1"). vm_compute. reflexivity.
Defined.

Module ScannerSafe.

Import Scanner Measures ScanSafety ScannerTotal.

Lemma SInv_weaken (k j : nat) (s : Scanner) : j <= k -> SInv k s -> SInv j s.
Proof. intros H [Hk Hp]. split; [lia | exact Hp]. Qed.

Lemma NP_bind {A B} (k : nat) (a : SM A) (f : A -> SM B) :
  NP k a -> (forall x, NP k (f x)) -> NP k (bind a f).
Proof.
  intros Ha Hf s Hs. unfold bind. specialize (Ha s Hs).
  destruct (a s) as [[x s1]| |]; try contradiction. exact (Hf x s1 Ha).
Qed.

Lemma NP_ret {A} (k : nat) (x : A) : NP k (ret x).
Proof. intros s Hs. exact Hs. Qed.

Lemma NP_make_token (k : nat) (t : TokenType.TokenType) : NP k (make_token t).
Proof. intros s Hs. exact Hs. Qed.

Lemma NP_peek (k : nat) : NP k peek.
Proof. intros s Hs. rewrite peek_eq. exact Hs. Qed.

Lemma NP_peek_next (k : nat) : NP k peek_next.
Proof.
  intros [st cur [la|] n l] [Hk (pre & Hl & Hst)]; unfold peek_next; simpl in *.
  - split; [exact Hk|]. exists pre. auto.
  - split; [exact Hk|]. exists pre. split; [exact Hl|].
    unfold remaining in *; simpl in *. rewrite Hst. destruct cur; reflexivity.
Qed.

Lemma NP_advance (k : nat) : NP k advance.
Proof.
  intros [st cur [la|] n l] [Hk (pre & Hl & Hst)]; unfold advance, remaining in *; simpl in *.
  - split; [simpl; lia|]. exists (pre ++ [la]). simpl.
    rewrite length_app, Hst, <- app_assoc. simpl. split; [lia | reflexivity].
  - destruct cur as [|c cur]; simpl.
    + split; [exact Hk|]. exists pre. auto.
    + split; [simpl; lia|]. exists (pre ++ [c]). simpl.
      rewrite length_app, Hst, <- app_assoc. simpl. split; [lia | reflexivity].
Qed.

Lemma NP_incr_line (k : nat) : NP k (modify incr_line).
Proof.
  intros s [Hk (pre & Hl & Hst)]. unfold modify. split; [exact Hk|].
  exists pre. rewrite remaining_incr_line. auto.
Qed.

Lemma NP_sync_start : NP 0 sync_start.
Proof.
  intros s [_ (pre & Hl & Hst)]. unfold sync_start. split; [simpl; lia|].
  exists []. simpl. split; [reflexivity|].
  destruct s as [st cur la n l]; simpl in *. rewrite Hst, <- Hl, skipn_app, skipn_all.
  rewrite Nat.sub_diag. reflexivity.
Qed.

Lemma NP_while_loop (k : nat) (body : SM bool) :
  NP k body -> strict_true body ->
  forall fuel s, SInv k s -> rem_len s < fuel ->
  match loop_fuel fuel body s with
  | Done (_, s') => SInv k s'
  | _ => Logic.False
  end.
Proof.
  intros Hn Hs fuel. induction fuel as [|f IH]; intros s Hi Hf; [lia|].
  rewrite ScannerFacts.loop_fuel_S. specialize (Hn s Hi).
  destruct (body s) as [[b s1]| |] eqn:E; try contradiction.
  destruct b; [|exact Hn]. apply IH; [exact Hn|]. specialize (Hs _ _ E). lia.
Qed.

Lemma NP_while (k : nat) (body : SM bool) :
  NP k body -> strict_true body -> NP k (while_ body).
Proof.
  intros Hn Hs s Hi. unfold while_. apply NP_while_loop; auto.
Qed.

Ltac np :=
  repeat match goal with
  | |- NP _ (bind _ _) => apply NP_bind; [|intro; cbv beta]
  | |- NP _ (ret _) => apply NP_ret
  | |- NP _ peek => apply NP_peek
  | |- NP _ peek_next => apply NP_peek_next
  | |- NP _ advance => apply NP_advance
  | |- NP _ (make_token _) => apply NP_make_token
  | |- NP _ (error_token _) => apply NP_make_token
  | |- NP _ (modify incr_line) => apply NP_incr_line
  | |- NP _ (while_ _) => apply NP_while
  | |- NP _ (match ?x with _ => _ end) => destruct x
  | |- NP _ (if ?b then _ else _) => destruct b
  end.

Lemma NP_next_matches (k : nat) (c : ascii) : NP k (next_matches c).
Proof. unfold next_matches. np. Qed.

Lemma NP_skip_if_comment (k : nat) : NP k skip_if_comment.
Proof. unfold skip_if_comment. np. strict. Qed.

Lemma NP_skip_whitespaces : NP 0 skip_whitespaces.
Proof.
  unfold skip_whitespaces. apply NP_bind; [|intros; apply NP_sync_start].
  apply NP_while; [np; apply NP_skip_if_comment | apply skip_ws_body_strict].
Qed.


Lemma advance_succ (k : nat) (s : Scanner) (x : ascii) (r : list ascii) :
  SInv k s -> remaining s = x :: r ->
  exists s', advance s = Done (Some x, s') /\ SInv (S k) s' /\ remaining s' = r.
Proof.
  intros [Hk (pre & Hl & Hst)].
  destruct s as [st cur [la|] n l]; unfold remaining in *; simpl in *; intros E.
  - injection E as -> ->. eexists; split; [reflexivity|]. split; [|reflexivity].
    split; [simpl; lia|]. exists (pre ++ [x]). simpl.
    rewrite length_app, Hst, <- app_assoc. simpl. split; [lia | reflexivity].
  - subst cur. eexists; split; [reflexivity|]. split; [|reflexivity].
    split; [simpl; lia|]. exists (pre ++ [x]). simpl.
    rewrite length_app, Hst, <- app_assoc. simpl. split; [lia | reflexivity].
Qed.

Lemma scan_lexeme_safe (k : nat) (s : Scanner) :
  SInv k s ->
  exists lex s', scan_lexeme s = Done (lex, s') /\ List.length lex = cur_len s /\ SInv 0 s'.
Proof.
  intros [Hk (pre & Hl & Hst)]. unfold scan_lexeme. rewrite Hst.
  rewrite (ScannerFacts.take_start_app pre (remaining s) (cur_len s)) by (symmetry; exact Hl).
  exists pre, (set_start_len (remaining s) 0 s). split; [reflexivity|]. split; [exact Hl|].
  split; [simpl; lia|]. exists []. split; [reflexivity|].
  destruct s as [st cur [la|] n l]; reflexivity.
Qed.

Lemma scan_str_lexeme_safe (s : Scanner) :
  SInv 2 s -> exists lex s', scan_str_lexeme s = Done (lex, s') /\ SInv 0 s'.
Proof.
  intros [Hk (pre & Hl & Hst)]. unfold scan_str_lexeme.
  destruct (cur_len s) as [|n] eqn:En; [lia|].
  destruct pre as [|p0 ptl]; [simpl in Hl; lia|]. simpl in Hl. injection Hl as Hl.
  rewrite Hst. simpl tl.
  destruct (@exists_last _ ptl) as (a & b & Eab); [intros E; subst ptl; simpl in Hl; lia|].
  subst ptl. rewrite length_app in Hl. simpl in Hl. rewrite <- app_assoc. simpl.
  rewrite (ScannerFacts.take_start_app a (b :: remaining s) (n - 1)) by lia. simpl.
  eexists _, _. split; [reflexivity|].
  split; [simpl; lia|]. exists []. split; [reflexivity|].
  destruct s as [st cur [la|] n' l]; reflexivity.
Qed.

Lemma check_if_keyword_safe (bs : list ascii) :
  bs <> [] -> exists o, check_if_keyword bs = Done o.
Proof.
  intros H. destruct bs as [|b0 [|b1 r]]; [contradiction| |];
    unfold check_if_keyword, check_suffix; simpl;
    repeat match goal with
           | |- context [if ?b then _ else _] => destruct b
           end; eexists; reflexivity.
Qed.

Lemma string_safe (s : Scanner) :
  SInv 1 s -> match string s with Done (_, s') => SInv 0 s' | _ => Logic.False end.
Proof.
  intros H. unfold string.
  match goal with
  | |- context [while_ ?B] =>
      assert (W : NP 1 (while_ B)) by (apply NP_while; [np | strict])
  end.
  specialize (W s H). unfold bind at 1.
  destruct (while_ _ s) as [[[] s1]| |]; try contradiction.
  unfold bind at 1. rewrite peek_eq.
  destruct (remaining s1) as [|x r] eqn:E; simpl hd_error; cbv beta iota.
  - exact (SInv_weaken 1 0 s1 ltac:(lia) W).
  - destruct (advance_succ 1 s1 x r W E) as (s2 & A & H2 & _).
    unfold bind. cbn [hd_error]. cbv beta iota. rewrite A.
    destruct (scan_str_lexeme_safe s2 H2) as (lex & s3 & SL & H3). rewrite SL. exact H3.
Qed.

Lemma digits_split (r : list ascii) :
  exists ds rest, r = ds ++ rest /\ digits ds /\ starts_with_non_digit rest.
Proof.
  induction r as [|a r (ds & rest & -> & Hd & Hr)].
  - exists [], []. split; [reflexivity|]. split; [constructor | exact I].
  - destruct (Float64.is_digit a) eqn:Ea.
    + exists (a :: ds), rest. split; [reflexivity|]. split; [constructor; auto | exact Hr].
    + exists [], (a :: ds ++ rest). split; [reflexivity|]. split; [constructor | exact Ea].
Qed.

Lemma number_safe (c : ascii) (r : list ascii) (l : nat) :
  Float64.is_digit c = true ->
  match number (mkScanner (c :: r) r None 1 l) with
  | Done (_, s') => SInv 0 s'
  | _ => Logic.False
  end.
Proof.
  intros Hc. destruct (digits_split r) as (ds & rest & -> & Hds & Hr).
  assert (D : dot_then_digit rest \/ ~ dot_then_digit rest).
  { destruct rest as [|x [|f r2]];
      [right; intros (c' & r' & E & _); discriminate E
      |right; intros (c' & r' & E & _); discriminate E|].
    destruct (Ascii.eqb_spec x "."%char) as [->|Hx];
      [|right; intros (c' & r' & E & _); injection E as E _ _; congruence].
    destruct (Float64.is_digit f) eqn:Ef.
    - left. exists f, r2. split; [reflexivity | exact Ef].
    - right. intros (c' & r' & E & Hc'). injection E as <- _. congruence. }
  destruct D as [(f & r2 & -> & Hf) | Hnd].
  - destruct (digits_split r2) as (fs & rest3 & -> & Hfs & Hr3).
    destruct (ScannerFacts.number_frac c f ds fs rest3 l Hc Hds Hf Hfs Hr3)
      as (s' & E & Hrem & Hst & Hcl & _).
    rewrite E. split; [lia|]. exists []. rewrite Hcl, Hst, Hrem. split; reflexivity.
  - destruct (ScannerFacts.number_nofrac c ds rest l Hc Hds Hr Hnd)
      as (s' & E & Hrem & Hst & Hcl & _).
    rewrite E. split; [lia|]. exists []. rewrite Hcl, Hst, Hrem. split; reflexivity.
Qed.

Lemma identifier_safe (s : Scanner) :
  SInv 1 s -> match identifier s with Done (_, s') => SInv 0 s' | _ => Logic.False end.
Proof.
  intros H. unfold identifier.
  match goal with
  | |- context [while_ ?B] =>
      assert (W : NP 1 (while_ B)) by (apply NP_while; [np | strict])
  end.
  specialize (W s H). unfold bind at 1.
  destruct (while_ _ s) as [[[] s1]| |]; try contradiction.
  unfold keyword_or_identifier, bind at 1.
  destruct (scan_lexeme_safe 1 s1 W) as (lex & s2 & SL & Hlen & H2). rewrite SL.
  destruct (check_if_keyword_safe lex) as [[k|] Ek];
    [intros E; subst lex; simpl in Hlen; destruct W; lia | |]; rewrite Ek; exact H2.
Qed.

Lemma match_char_safe (c : ascii) (r : list ascii) (l : nat) :
  match match_char c (mkScanner (c :: r) r None 1 l) with
  | Done (_, s') => SInv 0 s'
  | _ => Logic.False
  end.
Proof.
  assert (HS : SInv 1 (mkScanner (c :: r) r None 1 l))
    by (split; [simpl; lia | exists [c]; split; reflexivity]).
  assert (G : forall A (op : SM A), NP 1 op ->
                match op (mkScanner (c :: r) r None 1 l) with
                | Done (_, s') => SInv 0 s'
                | _ => Logic.False
                end).
  { intros A op Hop. specialize (Hop _ HS).
    destruct (op _) as [[x s']| |]; try contradiction. exact (SInv_weaken 1 0 s' ltac:(lia) Hop). }
  unfold match_char.
  repeat match goal with
         | |- context [if ?b then _ else _] => let E := fresh "E" in destruct b eqn:E
         end;
  first [ apply G; first [ apply NP_make_token
                         | unfold possible_two_char_token; np; apply NP_next_matches ]
        | apply string_safe; exact HS
        | apply number_safe; assumption
        | apply identifier_safe; exact HS ].
Qed.

Lemma skip_ws_synced (s s1 : Scanner) :
  skip_whitespaces s = Done (tt, s1) -> cur_len s1 = 0.
Proof.
  intros E. unfold skip_whitespaces, bind at 1 in E.
  destruct (while_ _ s) as [[[] s0]| |]; try discriminate E.
  unfold sync_start in E. injection E as <-. reflexivity.
Qed.

Lemma next_safe (s : Scanner) :
  SInv 0 s -> match next s with Done (_, s') => SInv 0 s' | _ => Logic.False end.
Proof.
  intros H. unfold next, bind at 1. pose proof (NP_skip_whitespaces s H) as W.
  destruct (skip_whitespaces s) as [[[] s1]| |] eqn:Esw; try contradiction.
  pose proof (skip_ws_synced s s1 Esw) as Hc.
  destruct W as [_ (pre & Hl & Hst)]. rewrite Hc in Hl. destruct pre; [|discriminate Hl].
  simpl in Hst. unfold bind.
  destruct (remaining s1) as [|x r] eqn:E.
  - rewrite (adv_nil s1 E). split; [lia|]. exists []. rewrite Hc, Hst, E. split; reflexivity.
  - assert (A : advance s1 = Done (Some x, mkScanner (x :: r) r None 1 (line_no s1))).
    { destruct s1 as [st cur [la|] n l]; unfold remaining in *; simpl in *; subst;
        first [reflexivity | injection E as -> ->; reflexivity]. }
    rewrite A. pose proof (match_char_safe x r (line_no s1)) as M.
    destruct (match_char x _) as [[t s2]| |]; try contradiction. exact M.
Qed.


End ScannerSafe.


(** [check_if_keyword] never panics on a non-empty lexeme and recognises
    exactly the sixteen keywords, spelled in full; any other lexeme
    (a prefix or an extension of a keyword included) is no keyword. *)
Theorem check_if_keyword_table (bs : list ascii) :
  bs <> [] ->
  (exists o, Scanner.check_if_keyword bs = Done o)
  /\ forall t, Scanner.check_if_keyword bs = Done (Some t)
               <-> In (string_of_list_ascii bs, t)
                      [("and", TokenType.And); ("class", TokenType.Class);
                       ("else", TokenType.Else); ("if", TokenType.If);
                       ("nil", TokenType.Nil); ("or", TokenType.Or);
                       ("print", TokenType.Print); ("return", TokenType.Return);
                       ("super", TokenType.Super); ("var", TokenType.Var);
                       ("while", TokenType.While); ("this", TokenType.This);
                       ("true", TokenType.True); ("false", TokenType.False);
                       ("for", TokenType.For); ("fun", TokenType.Fun)].
Proof.
  intros Hne. split.
  - destruct bs as [|b0 [|b1 r]]; [contradiction| |];
      unfold Scanner.check_if_keyword, Scanner.check_suffix; simpl;
      repeat match goal with
             | |- context [if ?b then _ else _] => destruct b
             end; eexists; reflexivity.
  - intros t. split.
    + intros E. destruct bs as [|b0 r]; [contradiction|].
      unfold Scanner.check_if_keyword, Scanner.check_suffix in E.
      repeat match type of E with
             | context [if (?a =? ?b)%char then _ else _] =>
                 destruct (Ascii.eqb_spec a b); [subst a|]
             | context [if String.eqb ?a ?b then _ else _] =>
                 destruct (String.eqb_spec a b)
             | context [if (?a <? ?b)%nat then _ else _] => destruct (a <? b)%nat
             | context [match ?r with [] => _ | _ :: _ => _ end] =>
                 let x := fresh "b" in let y := fresh "r" in destruct r as [|x y]
             end; try discriminate E.
      all: injection E as <-; simpl in *;
           match goal with H : string_of_list_ascii _ = _ |- _ => rewrite H; simpl; tauto end.
    + intros H. simpl in H.
      repeat destruct H as [H|H]; try contradiction;
        injection H as Hs <-;
        apply (f_equal list_ascii_of_string) in Hs;
        rewrite list_ascii_of_string_of_list_ascii in Hs; subst bs; reflexivity.
Qed.

(** [and] is found in the table. *)
Lemma check_if_keyword_table_witness :
  Scanner.check_if_keyword ["a";"n";"d"]%char = Done (Some TokenType.And).
Proof.
  apply (proj2 (check_if_keyword_table ["a";"n";"d"]%char ltac:(discriminate))).
  left. reflexivity.
Defined.

Module ExtraCompilerFacts.

Import Compiler.


End ExtraCompilerFacts.



(** A source with no tokens (empty, blanks, comments) compiles, without
    any error, to the single instruction [Return] on line 0. *)
Theorem blank_source_compiles_to_return (source : String.string) :
  Scanner.tokens source = Done [] ->
  exists c, Compiler.compile_session source = Done c
            /\ Compiler.chunk c = Common.mkChunk [Common.IWL Instruction.Return 0] []
            /\ Compiler.errors c = [].
Proof.
  intros H. unfold Scanner.tokens in H. cbn [Scanner.tokens_fuel] in H.
  pose proof (ScannerTotal.next_spec (Scanner.new (list_ascii_of_string source))) as N.
  destruct (Scanner.next (Scanner.new (list_ascii_of_string source))) as [[[t|] s1]| |] eqn:En;
    try discriminate H.
  - destruct (Scanner.tokens_fuel _ _); discriminate H.
  - destruct (ScannerTotal.next_nil s1 N) as (s2 & N2 & _).
    unfold Compiler.compile_session, Compiler.new. rewrite En.
    unfold Compiler.expression. cbn [Compiler.parse_precedence].
    unfold Compiler.advance, Compiler.finish_compiler, Compiler.emit_instruction_for_last_token,
      bind, get, put, modify, Compiler.scanner_next.
    cbn -[Scanner.next]. rewrite N. cbn -[Scanner.next]. unfold bind, ret. cbn -[Scanner.next]. rewrite N2. cbn.
    eexists. split; [reflexivity|]. split; reflexivity.
Qed.

(** A source made of a comment. *)
Lemma blank_source_compiles_to_return_witness :
  Scanner.tokens "  // nothing to see" = Done []
  /\ exists c, Compiler.compile_session "  // nothing to see" = Done c
               /\ Compiler.chunk c = Common.mkChunk [Common.IWL Instruction.Return 0] []
               /\ Compiler.errors c = [].
Proof.
  assert (H : Scanner.tokens "  // nothing to see" = Done []) by (vm_compute; reflexivity).
  split; [exact H | exact (blank_source_compiles_to_return _ H)].
Defined.

Module CompilerGood.

Import Compiler CompilerInv.

Section Generic.

Variable P : Compiler -> Prop.
Variable Q : String.string -> Prop.

Hypothesis P_next : forall c, P c ->
  match scanner_next c with
  | Done (_, c') => P c'
  | Panicked m => Q m
  | OutOfFuel => Logic.True
  end.
Hypothesis P_push : forall c e, panic_mode c = false -> P c -> P (push_error e c).
Hypothesis P_current : forall c t, P c -> P (set_current t c).
Hypothesis P_previous : forall c t, P c -> P (set_previous t c).
Hypothesis P_chunk : forall c ch, P c -> P (set_chunk ch c).
Hypothesis P_line : forall c l, P c -> P (set_last_token_line l c).
Hypothesis Q_infix : Q "Can't invoke infix rule on this token type".

Lemma G_bind {A B} (m : CM A) (k : A -> CM B) :
  Good P Q m -> (forall a, Good P Q (k a)) -> Good P Q (bind m k).
Proof.
  intros Gm Gk c Pc. unfold bind. specialize (Gm c Pc).
  destruct (m c) as [[a c']| |]; [apply Gk|..]; assumption.
Qed.

Lemma G_ret {A} (a : A) : Good P Q (ret a).
Proof. intros c Pc. exact Pc. Qed.

Lemma G_get_bind {A} (k : Compiler -> CM A) :
  (forall c, P c -> match k c c with
                    | Done (_, c') => P c'
                    | Panicked m => Q m
                    | OutOfFuel => Logic.True
                    end) ->
  Good P Q (bind get k).
Proof. intros H c Pc. exact (H c Pc). Qed.

Lemma G_modify (f : Compiler -> Compiler) :
  (forall c, P c -> P (f c)) -> Good P Q (modify f).
Proof. intros H c Pc. exact (H c Pc). Qed.

Lemma G_panic_infix {A} : Good P Q (A := A) (panic "Can't invoke infix rule on this token type").
Proof. intros c _. exact Q_infix. Qed.

Lemma G_out_of_fuel {A} : Good P Q (A := A) out_of_fuel.
Proof. intros c _. exact I. Qed.

Lemma G_scanner_next : Good P Q scanner_next.
Proof. exact P_next. Qed.

Lemma G_loop_fuel (fuel : nat) (body : CM bool) :
  Good P Q body -> Good P Q (loop_fuel fuel body).
Proof.
  intros Gb. induction fuel as [|fuel IH]; simpl.
  - apply G_out_of_fuel.
  - apply G_bind; [exact Gb|]. intros [|]; [exact IH|apply G_ret].
Qed.

Lemma G_error (msg : String.string) (t : Scanner.Token) : Good P Q (error msg t).
Proof.
  unfold error. apply G_get_bind. intros c Pc.
  destruct (panic_mode c) eqn:E; [exact Pc|]. apply P_push; assumption.
Qed.

Lemma G_error_at_the_end (msg : String.string) : Good P Q (error_at_the_end msg).
Proof.
  unfold error_at_the_end. apply G_get_bind. intros c Pc.
  destruct (panic_mode c) eqn:E; [exact Pc|]. apply P_push; assumption.
Qed.

Lemma G_advance : Good P Q advance.
Proof.
  unfold advance. apply G_get_bind. intros c Pc.
  set (c1 := let c := set_previous (current c) c in
             match previous c with
             | Some t => set_last_token_line (Scanner.line t) c
             | Datatypes.None => c
             end).
  assert (P1 : P c1).
  { subst c1. cbv zeta. destruct (previous (set_previous (current c) c));
      [apply P_line|]; apply P_previous; exact Pc. }
  unfold bind at 1, put. cbv beta iota.
  unfold bind at 1, get. cbv beta iota.
  apply G_loop_fuel; [|exact P1].
  apply G_bind; [exact G_scanner_next|]. intros t.
  apply G_bind; [apply G_modify; intros; apply P_current; assumption|]. intros _.
  destruct t as [t|]; [|apply G_ret].
  destruct (Scanner.t_type t); try apply G_ret.
  apply G_bind; [apply G_error|]. intros _. apply G_ret.
Qed.

Lemma G_consume (tt' : TokenType.TokenType) (msg : String.string) :
  Good P Q (consume tt' msg).
Proof.
  unfold consume. apply G_get_bind. intros c Pc.
  destruct (current c) as [cur|].
  - destruct (TokenType.eqb (Scanner.t_type cur) tt');
      [apply G_advance|apply G_error]; exact Pc.
  - apply G_error_at_the_end. exact Pc.
Qed.

Lemma G_emit_instruction (i : Instruction) (t : Scanner.Token) :
  Good P Q (emit_instruction i t).
Proof. apply G_modify. intros. apply P_chunk. assumption. Qed.

Lemma G_emit_instruction_for_last_token (i : Instruction) :
  Good P Q (emit_instruction_for_last_token i).
Proof. apply G_modify. intros. apply P_chunk. assumption. Qed.

Lemma G_number (d : float) (t : Scanner.Token) : Good P Q (number d t).
Proof.
  unfold number. apply G_get_bind. intros c Pc.
  destruct (add_constant (chunk c) (Value.Double d)) as [ch k].
  unfold bind at 1, put. cbv beta iota.
  apply G_emit_instruction. apply P_chunk. exact Pc.
Qed.

Section WithPP.

Variable pp : Precedence.Precedence -> CM unit.
Hypothesis G_pp : forall p, Good P Q (pp p).

Lemma G_expression : Good P Q (expression pp).
Proof. apply G_pp. Qed.

Lemma G_grouping : Good P Q (grouping pp).
Proof.
  unfold grouping. apply G_bind; [apply G_expression|]. intros _. apply G_consume.
Qed.

Lemma G_prefix_rule (t : Scanner.Token) : Good P Q (prefix_rule pp t).
Proof.
  unfold prefix_rule. destruct (Scanner.t_type t) eqn:E;
    try apply G_error; try apply G_grouping; try apply G_number.
  unfold unary. apply G_bind; [apply G_expression|]. intros _.
  rewrite E. apply G_emit_instruction.
Qed.

Lemma G_infix_rule (t : Scanner.Token) : Good P Q (infix_rule pp t).
Proof.
  unfold infix_rule. destruct (Scanner.t_type t) eqn:E; try apply G_panic_infix;
    unfold binary; rewrite E; (apply G_bind; [apply G_pp|]); intros _;
    apply G_emit_instruction_for_last_token.
Qed.

Lemma G_parse_loop (fuel : nat) (prec : Precedence.Precedence) :
  Good P Q (parse_loop pp fuel prec).
Proof.
  induction fuel as [|fuel IH]; simpl; [apply G_out_of_fuel|].
  apply G_get_bind. intros c Pc.
  destruct (current c) as [t|] eqn:Ec; [|exact Pc].
  destruct (Precedence.ltb _ prec); [exact Pc|].
  pose proof (CompilerFacts.advance_spec c) as A. pose proof (G_advance c Pc) as GA.
  unfold bind at 1. destruct (advance c) as [[[] c1]| |]; [|exact GA|exact I].
  destruct A as (_ & Hprev & _). rewrite Ec in Hprev.
  unfold bind at 1, get. cbv beta iota. rewrite Hprev.
  clear Hprev. revert c1 GA. apply G_bind; [apply G_infix_rule|]. intros _. exact IH.
Qed.

End WithPP.

Lemma G_parse_precedence (fuel : nat) (prec : Precedence.Precedence) :
  Good P Q (parse_precedence fuel prec).
Proof.
  revert prec. induction fuel as [|fuel IH]; intros prec; simpl; [apply G_out_of_fuel|].
  apply G_bind; [apply G_advance|]. intros _. apply G_get_bind. intros c Pc.
  destruct (previous c) as [t|]; [|exact Pc].
  revert c Pc. apply G_bind; [apply G_prefix_rule; exact IH|].
  intros _. apply G_parse_loop. exact IH.
Qed.

Lemma G_session (n : nat) :
  Good P Q (expression (parse_precedence n) ;; finish_compiler).
Proof.
  apply G_bind; [apply G_parse_precedence|]. intros _.
  apply G_emit_instruction_for_last_token.
Qed.

End Generic.

(** The instance of the scanner's invariant. *)
Lemma sinv_new (cs : list ascii) : ScanSafety.SInv 0 (Scanner.new cs).
Proof.
  split; [simpl; lia|]. exists []. split; reflexivity.
Qed.

Lemma new_sinv (cs : list ascii) :
  match new (Scanner.new cs) Chunk_new with
  | Done comp => ScanSafety.SInv 0 (scanner comp) /\ EInv comp
  | _ => Logic.False
  end.
Proof.
  unfold new. pose proof (ScannerSafe.next_safe _ (sinv_new cs)) as N.
  destruct (Scanner.next (Scanner.new cs)) as [[t s]| |]; try contradiction.
  split; [exact N|]. left. split; reflexivity.
Qed.

Lemma session_good (P : Compiler -> Prop) (Q : String.string -> Prop) (source : String.string) :
  Good P Q (expression (parse_precedence (S (List.length (list_ascii_of_string source))))
            ;; finish_compiler) ->
  (forall comp, ScanSafety.SInv 0 (scanner comp) /\ EInv comp -> P comp) ->
  match compile_session source with
  | Done c => P c
  | Panicked m => Q m
  | OutOfFuel => Logic.True
  end.
Proof.
  intros G H0. unfold compile_session.
  pose proof (new_sinv (list_ascii_of_string source)) as N.
  destruct (new _ _) as [comp| |]; try contradiction.
  specialize (G comp (H0 comp N)).
  destruct ((expression (parse_precedence (S (List.length (list_ascii_of_string source)))) ;; finish_compiler) comp) as [[[] cf]| |]; assumption.
Qed.

Lemma einv_session (source : String.string) :
  match compile_session source with Done c => EInv c | _ => Logic.True end.
Proof.
  pose proof (session_good EInv (fun _ => Logic.True) source) as S.
  destruct (compile_session source); [apply S|exact I|exact I]; [|tauto].
  apply G_session.
  - intros c Pc. unfold scanner_next.
    destruct (Scanner.next (scanner c)) as [[t s]| |]; [|exact I|exact I]. exact Pc.
  - intros c e Hp [[_ He]|[Hp' _]]; [|congruence].
    right. split; [reflexivity|]. exists e. simpl. rewrite He. reflexivity.
  - intros c t Pc. exact Pc.
  - intros c t Pc. exact Pc.
  - intros c t Pc. exact Pc.
  - intros c t Pc. exact Pc.
  - exact I.
Qed.

Lemma infix_only_session (source : String.string) :
  match compile_session source with
  | Panicked m => m = "Can't invoke infix rule on this token type"
  | _ => Logic.True
  end.
Proof.
  pose proof (session_good (fun c => ScanSafety.SInv 0 (scanner c))
                (fun m => m = "Can't invoke infix rule on this token type") source) as S.
  destruct (compile_session source); [exact I| |exact I].
  apply S; [|tauto].
  apply G_session.
  - intros c Pc. unfold scanner_next.
    pose proof (ScannerSafe.next_safe _ Pc) as N.
    destruct (Scanner.next (scanner c)) as [[t s]| |]; [exact N|contradiction|contradiction].
  - intros c e _ Pc. exact Pc.
  - intros c t Pc. exact Pc.
  - intros c t Pc. exact Pc.
  - intros c t Pc. exact Pc.
  - intros c t Pc. exact Pc.
  - reflexivity.
Qed.

End CompilerGood.

(** A compilation records at most one error: [error] and
    [error_at_the_end] record only out of panic mode and enter it, and
    nothing leaves it; no error is recorded exactly when the compiler
    ends out of panic mode. *)
Theorem compile_reports_at_most_one_error (source : String.string) (c : Compiler.Compiler) :
  Compiler.compile_session source = Done c ->
  (Compiler.panic_mode c = false /\ Compiler.errors c = [])
  \/ (Compiler.panic_mode c = true /\ exists e, Compiler.errors c = [e]).
Proof.
  intros E. pose proof (CompilerGood.einv_session source) as S. rewrite E in S. exact S.
Qed.

(** [1 + )]: the missing operand is the only error reported. *)
Lemma compile_reports_at_most_one_error_witness :
  exists c, Compiler.compile_session "1 + )" = Done c
            /\ ((Compiler.panic_mode c = false /\ Compiler.errors c = [])
                \/ (Compiler.panic_mode c = true /\ exists e, Compiler.errors c = [e])).
Proof.
  eexists. split; [vm_compute; reflexivity|].
  apply (compile_reports_at_most_one_error "1 + )"). vm_compute. reflexivity.
Defined.

(** The only panic of compilation is [infix_rule]'s, on a token whose
    precedence lets the loop of [parse_precedence] go on but that has no
    infix rule: the scanner, [unary], [binary] and the [unwrap] of
    [previous] never panic. [compile] and [interpret_source] inherit it. *)
Theorem compile_only_panics_on_infix (source : String.string) (m : String.string) :
  (Compiler.compile_session source = Panicked m
   -> m = "Can't invoke infix rule on this token type")
  /\ (Compiler.compile source = Panicked m
      -> m = "Can't invoke infix rule on this token type")
  /\ (Vm.interpret_source source = Panicked m
      -> m = "Can't invoke infix rule on this token type").
Proof.
  pose proof (CompilerGood.infix_only_session source) as S.
  unfold Vm.interpret_source, Compiler.compile, Compiler.compile_to_chunk.
  destruct (Compiler.compile_session source) as [c| m'|];
    repeat split; intros E; try discriminate E; injection E as <-; exact S.
Qed.

(** [1 (]: [(] has precedence [Call] but no infix rule. *)
Lemma compile_only_panics_on_infix_witness :
  Vm.interpret_source "1 (" = Panicked "Can't invoke infix rule on this token type"
  /\ "Can't invoke infix rule on this token type" = "Can't invoke infix rule on this token type".
Proof.
  split; [vm_compute; reflexivity|].
  apply (proj2 (proj2 (compile_only_panics_on_infix "1 (" "Can't invoke infix rule on this token type"))).
  vm_compute. reflexivity.
Defined.

Module ScannerLines.

Import Scanner ScanLines.

Lemma M_bind {A B} (a : SM A) (f : A -> SM B) :
  Mono a -> (forall x, Mono (f x)) -> Mono (bind a f).
Proof.
  intros Ha Hf s. unfold bind. specialize (Ha s).
  destruct (a s) as [[x s1]| |]; [|exact I|exact I].
  specialize (Hf x s1). destruct (f x s1) as [[y s2]| |]; [lia|exact I|exact I].
Qed.

Lemma M_ret {A} (x : A) : Mono (ret x).
Proof. intros s. simpl. lia. Qed.

Lemma M_panic {A} (m : String.string) : Mono (A := A) (panic m).
Proof. intros s. exact I. Qed.

Lemma M_peek : Mono peek.
Proof. intros [st cur [la|] n l]; simpl; lia. Qed.

Lemma M_peek_next : Mono peek_next.
Proof. intros [st cur [la|] n l]; simpl; lia. Qed.

Lemma M_advance : Mono advance.
Proof. intros [st [|c cur] [la|] n l]; simpl; lia. Qed.

Lemma M_make_token (t : TokenType.TokenType) : Mono (make_token t).
Proof. intros s. simpl. lia. Qed.

Lemma M_incr_line : Mono (modify incr_line).
Proof. intros s. simpl. lia. Qed.

Lemma M_scan_lexeme : Mono scan_lexeme.
Proof.
  intros s. unfold scan_lexeme.
  destruct (take_start _ _) as [[lex rest]|]; simpl; [lia|exact I].
Qed.

Lemma M_scan_str_lexeme : Mono scan_str_lexeme.
Proof.
  intros s. unfold scan_str_lexeme. destruct (cur_len s); [exact I|].
  destruct (take_start _ _) as [[lex rest]|]; simpl; [lia|exact I].
Qed.

Lemma M_sync_start : Mono sync_start.
Proof. intros s. simpl. lia. Qed.

Lemma M_loop_fuel (fuel : nat) (body : SM bool) : Mono body -> Mono (loop_fuel fuel body).
Proof.
  intros Hb. induction fuel as [|fuel IH]; simpl; [intros s; exact I|].
  apply M_bind; [exact Hb|]. intros [|]; [exact IH|apply M_ret].
Qed.

Lemma M_while (body : SM bool) : Mono body -> Mono (while_ body).
Proof. intros Hb s. unfold while_. apply M_loop_fuel. exact Hb. Qed.

Ltac mono :=
  repeat match goal with
  | |- Mono (bind _ _) => apply M_bind; [|intro; cbv beta]
  | |- Mono (ret _) => apply M_ret
  | |- Mono (panic _) => apply M_panic
  | |- Mono peek => apply M_peek
  | |- Mono peek_next => apply M_peek_next
  | |- Mono advance => apply M_advance
  | |- Mono (make_token _) => apply M_make_token
  | |- Mono (error_token _) => apply M_make_token
  | |- Mono (modify incr_line) => apply M_incr_line
  | |- Mono scan_lexeme => apply M_scan_lexeme
  | |- Mono scan_str_lexeme => apply M_scan_str_lexeme
  | |- Mono sync_start => apply M_sync_start
  | |- Mono (while_ _) => apply M_while
  | |- Mono (next_matches _) => unfold next_matches
  | |- Mono skip_if_comment => unfold skip_if_comment
  | |- Mono advance_while_digit => unfold advance_while_digit, advance_while_digit_step
  | |- Mono (match ?x with _ => _ end) => destruct x
  end.

Lemma M_skip_whitespaces : Mono skip_whitespaces.
Proof. unfold skip_whitespaces. mono. Qed.

Lemma T_bind {A} (a : SM A) (f : A -> SM Token) :
  Mono a -> (forall x, MkTok (f x)) -> MkTok (bind a f).
Proof.
  intros Ha Hf s. unfold bind. specialize (Ha s).
  destruct (a s) as [[x s1]| |]; [|exact I|exact I].
  specialize (Hf x s1). destruct (f x s1) as [[t s2]| |]; [lia|exact I|exact I].
Qed.

Lemma T_make_token (t : TokenType.TokenType) : MkTok (make_token t).
Proof. intros s. simpl. lia. Qed.

Lemma T_panic (m : String.string) : MkTok (panic m).
Proof. intros s. exact I. Qed.

Ltac mktok :=
  repeat match goal with
  | |- MkTok (bind _ _) => apply T_bind; [mono|intro; cbv beta]
  | |- MkTok (make_token _) => apply T_make_token
  | |- MkTok (error_token _) => apply T_make_token
  | |- MkTok (panic _) => apply T_panic
  | |- MkTok (possible_two_char_token _ _ _) => unfold possible_two_char_token
  | |- MkTok (match ?x with _ => _ end) => destruct x
  end.

Lemma T_keyword_or_identifier : MkTok keyword_or_identifier.
Proof.
  unfold keyword_or_identifier. apply T_bind; [apply M_scan_lexeme|].
  intros lexeme s. destruct (check_if_keyword lexeme) as [[kw|]| |]; simpl; try lia; exact I.
Qed.

Lemma T_match_char (c : ascii) : MkTok (match_char c).
Proof.
  unfold match_char, string, number, identifier.
  repeat match goal with
  | |- MkTok (if ?b then _ else _) => destruct b
  end; mktok; try apply T_keyword_or_identifier.
Qed.

Lemma next_lines (s : Scanner) :
  match next s with
  | Done (Some t, s') => line_no s <= line t /\ line t = line_no s'
  | Done (Datatypes.None, s') => line_no s <= line_no s'
  | _ => Logic.True
  end.
Proof.
  unfold next, bind at 1. pose proof (M_skip_whitespaces s) as W.
  destruct (skip_whitespaces s) as [[[] s1]| |]; [|exact I|exact I].
  unfold bind at 1. pose proof (M_advance s1) as A.
  destruct (advance s1) as [[[c|] s2]| |]; [|simpl; lia|exact I|exact I].
  unfold bind. pose proof (T_match_char c s2) as T.
  destruct (match_char c s2) as [[t s3]| |]; [simpl; lia|exact I|exact I].
Qed.

Lemma tokens_fuel_lines (n : nat) (s : Scanner) (ts : list Token) :
  tokens_fuel n s = Done ts ->
  Forall (fun t => line_no s <= line t) ts /\ Sorted le (map line ts).
Proof.
  revert s ts. induction n as [|n IH]; intros s ts E; simpl in E; [discriminate E|].
  pose proof (next_lines s) as N.
  destruct (next s) as [[[t|] s']| |]; try discriminate E.
  - destruct (tokens_fuel n s') as [ts'| |] eqn:E'; try discriminate E.
    injection E as <-. destruct (IH s' ts' E') as [F S]. destruct N as [N1 N2].
    split.
    + constructor; [exact N1|]. eapply Forall_impl; [|exact F]. simpl. intros a Ha. lia.
    + simpl. constructor; [exact S|].
      destruct ts' as [|t' ts'']; simpl; constructor.
      inversion F; subst. lia.
  - injection E as <-. split; constructor.
Qed.


End ScannerLines.

(** Every token of a source is on line 1 or later, and the lines of the
    successive tokens never decrease. *)
Theorem token_lines_nondecreasing (source : String.string) (ts : list Scanner.Token) :
  Scanner.tokens source = Done ts ->
  Forall (fun t => 1 <= Scanner.line t) ts /\ Sorted le (map Scanner.line ts).
Proof.
  unfold Scanner.tokens. intros E. exact (ScannerLines.tokens_fuel_lines _ _ _ E).
Qed.

(** [1 +], a newline, [(2]. *)
Lemma token_lines_nondecreasing_witness :
  exists ts, Scanner.tokens ("1 +" ++ String (ascii_of_nat 10) "(2") = Done ts
             /\ map Scanner.line ts = [1; 1; 2; 2]
             /\ Forall (fun t => 1 <= Scanner.line t) ts /\ Sorted le (map Scanner.line ts).
Proof.
  eexists. split; [vm_compute; reflexivity|]. split; [vm_compute; reflexivity|].
  apply (token_lines_nondecreasing ("1 +" ++ String (ascii_of_nat 10) "(2")).
  vm_compute. reflexivity.
Defined.



Module StringLexing.

Import Scanner.

Section Loop.

Variable B : SM bool.
Hypothesis B_step : forall c r st n l, c <> "034"%char ->
  B (mkScanner st (c :: r) Datatypes.None n l)
  = Done (true, mkScanner st r Datatypes.None (S n)
                  (if (c =? "010")%char then S l else l)).
Hypothesis B_stop : forall tail st n l,
  match tail with [] => Logic.True | c :: _ => c = "034"%char end ->
  B (mkScanner st tail Datatypes.None n l)
  = Done (false, mkScanner st tail Datatypes.None n l).


End Loop.



End StringLexing.



Module TwoCharTokens.

Import Scanner.


End TwoCharTokens.


